(** * A verified model of the crawler (crawler.go)

    The development embeds the crawl scheduler [crawlDomain], the fetch
    adapter [getLinks] and the two URL filters [isImageLink] and
    [isSameDomain] of crawler.go, and proves the properties stated for them.

    Go strings are byte sequences: a URL is a [string] (a list of [ascii]).
    The maps [visited] and [sitemap] are [gmap]s keyed by strings.  The
    goroutines of [crawlDomain] are modelled by an interleaving step relation
    over an explicit state: the scheduler loop, the pool of live goroutines,
    the unbuffered channel [pages] (a rendez-vous between one sender and the
    scheduler), the buffered channel [counter] (its occupancy) and the mutex
    guarding [sitemap]. *)

From Stdlib Require Import Ascii.
From stdpp Require Import gmap strings list fin_maps pretty sorting.

Local Open Scope nat_scope.

(* ===================================================================== *)
(** ** Strings as Go uses them *)
(* ===================================================================== *)

Module GoStrings.

(** strings.HasPrefix:
    [len(s) >= len(prefix) && s[:len(prefix)] == prefix]. *)
Definition HasPrefix (s prefix : string) : bool :=
  (String.length prefix <=? String.length s)
  && String.eqb (String.substring 0 (String.length prefix) s) prefix.

End GoStrings.

(* ===================================================================== *)
(** ** Regular expressions, as far as regexp.MatchString needs them *)
(* ===================================================================== *)

Module Regexp.

(** The syntax tree the pattern of [isImageLink] parses to, with the
    operator names of regexp/syntax.  Capture groups do not influence
    [MatchString] and are dropped; [x+] is [x x*]. *)
Inductive regex : Type :=
| NoMatch                                  (* matches nothing *)
| EmptyMatch                                   (* the empty match *)
| CharClass (p : ascii -> bool)             (* one byte of a class *)
| Concat (r1 r2 : regex)
| Alternate (r1 r2 : regex)
| Star (r : regex)
| EndText.                              (* [$] without the m flag *)

Definition Plus (r : regex) : regex := Concat r (Star r).

(** [nullable e r]: [r] matches the empty word at a position that is
    ([e = true]) or is not ([e = false]) the end of the text. *)
Fixpoint nullable (e : bool) (r : regex) : bool :=
  match r with
  | NoMatch => false
  | EmptyMatch => true
  | CharClass _ => false
  | Concat r1 r2 => nullable e r1 && nullable e r2
  | Alternate r1 r2 => nullable e r1 || nullable e r2
  | Star _ => true
  | EndText => e
  end.

(** Brzozowski derivative by one byte [c]; a byte follows, so the position
    before [c] is not the end of the text. *)
Fixpoint deriv (c : ascii) (r : regex) : regex :=
  match r with
  | NoMatch | EmptyMatch | EndText => NoMatch
  | CharClass p => if p c then EmptyMatch else NoMatch
  | Concat r1 r2 =>
      if nullable false r1
      then Alternate (Concat (deriv c r1) r2) (deriv c r2)
      else Concat (deriv c r1) r2
  | Alternate r1 r2 => Alternate (deriv c r1) (deriv c r2)
  | Star r1 => Concat (deriv c r1) (Star r1)
  end.

(** [r] matches the whole of [s]. *)
Fixpoint matches (r : regex) (s : list ascii) : bool :=
  match s with
  | [] => nullable true r
  | c :: s' => matches (deriv c r) s'
  end.

Definition AnyByte : regex := CharClass (fun _ => true).

(** The bytes of a Go string. *)
Fixpoint bytes (s : string) : list ascii :=
  match s with
  | EmptyString => []
  | String c s' => c :: bytes s'
  end.

(** Regexp.MatchString: [s] contains a match of [r] somewhere. *)
Definition MatchString (r : regex) (s : string) : bool :=
  matches (Concat (Star AnyByte) (Concat r (Star AnyByte))) (bytes s).

(** [\s] of RE2 syntax: tab, newline, form feed, carriage return, space. *)
Definition is_space (c : ascii) : bool :=
  let n := nat_of_ascii c in
  (n =? 9) || (n =? 10) || (n =? 12) || (n =? 13) || (n =? 32).

Definition NotSpace : regex := CharClass (fun c => negb (is_space c)).

Definition Lit (c : ascii) : regex := CharClass (Ascii.eqb c).

(** ASCII lower-casing; the letters of the pattern have no other fold. *)
Definition to_lower (c : ascii) : ascii :=
  let n := nat_of_ascii c in
  if (65 <=? n) && (n <=? 90) then ascii_of_nat (n + 32) else c.

(** A literal under the [(?i)] flag. *)
Definition LitFold (c : ascii) : regex :=
  CharClass (fun x => Ascii.eqb (to_lower x) (to_lower c)).

Fixpoint WordFold (w : string) : regex :=
  match w with
  | EmptyString => EmptyMatch
  | String c w' => Concat (LitFold c) (WordFold w')
  end.

(** ** What a regex denotes: [den r w rest] when [r] matches [w] and
    [rest] is the text that follows the match. *)
Inductive den : regex -> list ascii -> list ascii -> Prop :=
| den_empty rest : den EmptyMatch [] rest
| den_class p c rest : p c = true -> den (CharClass p) [c] rest
| den_cat r1 r2 w1 w2 rest :
    den r1 w1 (w2 ++ rest) -> den r2 w2 rest -> den (Concat r1 r2) (w1 ++ w2) rest
| den_alt_l r1 r2 w rest : den r1 w rest -> den (Alternate r1 r2) w rest
| den_alt_r r1 r2 w rest : den r2 w rest -> den (Alternate r1 r2) w rest
| den_star_nil r rest : den (Star r) [] rest
| den_star_cons r w1 w2 rest :
    den r w1 (w2 ++ rest) -> den (Star r) w2 rest ->
    den (Star r) (w1 ++ w2) rest
| den_end : den EndText [] [].

End Regexp.

(* ===================================================================== *)
(** ** The URL filters of crawler.go *)
(* ===================================================================== *)

(** The pattern of [isImageLink],
    [([^\s]+(\.(?i)(jpg|png|gif|bmp|tiff))$)]: the flag [(?i)] is set after
    the dot and holds to the end of its group, so the five words fold case. *)
Definition imageExtensions : list string :=
  ["jpg"; "png"; "gif"; "bmp"; "tiff"]%string.

Definition imagePattern : Regexp.regex :=
  Regexp.Concat (Regexp.Plus Regexp.NotSpace)
    (Regexp.Concat
       (Regexp.Concat (Regexp.Lit ".")
          (foldr (fun w r => Regexp.Alternate (Regexp.WordFold w) r)
             Regexp.NoMatch imageExtensions))
       Regexp.EndText).

(** isImageLink: whether the pattern matches somewhere in [url]. *)
Definition isImageLink (url : string) : bool :=
  let exp := imagePattern in
  if Regexp.MatchString exp url then true else false.

(** isSameDomain: whether [url] starts with [domain]. *)
Definition isSameDomain (domain url : string) : bool :=
  if GoStrings.HasPrefix url domain then true else false.

(* ===================================================================== *)
(** ** The fetcher and the fetch adapter *)
(* ===================================================================== *)

(** The interface [Fetcher]: [Get(url) (links []string, err error)].  An
    error is kept as its message; [None] is the nil error. *)
Class Fetcher : Type := { Get : string -> list string * option string }.

(** testFetcher of crawler_test.go: a table from URLs to their links. *)
Definition testFetcher_Get (t : gmap string (list string)) (url : string)
  : list string * option string :=
  match t !! url with
  | Some links => (links, None)
  | None => ([], Some ("could not find URL " +:+ url))
  end.

Definition testFetcher (t : gmap string (list string)) : Fetcher :=
  {| Get := testFetcher_Get t |}.

(** The table [tester] of crawler_test.go. *)
Definition tester : gmap string (list string) :=
  list_to_map
    [ ("http://golang.org",
        [ "http://golang.org/test.html";
          "http://golang.org/test2.html";
          "http://golang.org/images/gopher.jpg";
          "http://goweeklynews.com" ]);
      ("http://golang.org/test.html",
        [ "http://golang.org/testing.html";
          "http://golang.org/images/gopher.jpg";
          "http://linkedin.com/golang" ]);
      ("http://golang.org/test2.html", [ "http://golang.org" ]);
      ("http://golang.org/testing.html", [ "http://golang.org" ]) ]%string.

(** The tail of [getLinks], after the limiter slot is given back:
    [if err != nil { fmt.Println(err); return nil }; return links]. *)
Definition getLinks_result (r : list string * option string) : list string :=
  match r with
  | (_, Some _) => []
  | (links, None) => links
  end.

(* ===================================================================== *)
(** ** The crawl as a transition system *)
(* ===================================================================== *)

(** [n] is a Go [int]: 64 bits, two's complement. *)
Definition wrap (z : Z) : Z := ((z + 2 ^ 63) mod 2 ^ 64 - 2 ^ 63)%Z.

Definition maxInt : Z := (2 ^ 63 - 1)%Z.

(** [counter = make(chan struct{}, 20)]. *)
Definition limit : nat := 20.

(** Where the loop of [crawlDomain] stands. *)
Inductive sched_pc : Type :=
| SCond                         (* the test [n > 0] *)
| SRecv                         (* [links := <-pages] *)
| SRange (rest : list string)   (* [for _, link := range links], what is left *)
| SReturn.                      (* the loop is left, [crawlDomain] returns *)

(** Where a worker goroutine [go func(link string) {...}(link)] stands;
    the first four points lie in [getLinks]. *)
Inductive worker_pc : Type :=
| WAcquire                                    (* [counter <- struct{}{}] *)
| WGet                                        (* [fetcher.Get(url)] *)
| WRelease (r : list string * option string)  (* [<-counter] *)
| WErr (r : list string * option string)      (* [if err != nil] *)
| WLock (list : list string)                  (* [mutex.Lock()] *)
| WStore (list : list string)                 (* [sitemap[link] = list] *)
| WUnlock (list : list string)                (* [mutex.Unlock()] *)
| WSend (list : list string).                 (* [pages <- list] *)

Inductive goroutine : Type :=
| Seed                                  (* [go func() { pages <- []string{url} }()] *)
| Worker (link : string) (pc : worker_pc).

Record state : Type := State {
  visited : gmap string bool;
  sitemap : gmap string (list string);
  n : Z;
  counter : nat;          (* how many values the channel [counter] holds *)
  mutex : bool;           (* whether [mutex] is locked *)
  sched : sched_pc;
  pool : list goroutine;  (* the goroutines started and not yet finished *)
  stdout : list string    (* what [fmt.Println(err)] has printed *)
}.

(** What one step does, as seen from outside. *)
Inductive event : Type :=
| ECond (b : bool)                               (* [n > 0] was [b] *)
| EDeliver (from : option string) (links : list string)
                                                 (* a send on [pages] met the receive *)
| ESpawn (link : string)                         (* the body of the [if] *)
| ESkip (link : string)                          (* the [if] was false *)
| EPost                                          (* [n--] *)
| EAcquire (link : string)
| EGet (link : string)
| ERelease (link : string)
| EPrint (link : string) (err : string)
| ENoErr (link : string)
| ELock (link : string)
| EStore (link : string) (list : list string)
| EUnlock (link : string).

Section Crawl.
Context {fetcher : Fetcher}.
Variable url : string.   (* the argument of [crawlDomain] *)

(** The state after [go func() { pages <- []string{url} }()]. *)
Definition init : state :=
  {| visited := ∅; sitemap := ∅; n := 1; counter := 0; mutex := false;
     sched := SCond; pool := [Seed]; stdout := [] |}.

(** Reading a Go map of booleans: a missing key reads [false]. *)
Definition seen (s : state) (link : string) : bool :=
  default false (visited s !! link).

(** [!visited[link] && !isImageLink(link) && isSameDomain(url, link)] *)
Definition eligible (s : state) (link : string) : bool :=
  negb (seen s link) && negb (isImageLink link) && isSameDomain url link.

Definition set_sched (pc : sched_pc) (s : state) : state :=
  State (visited s) (sitemap s) (n s) (counter s) (mutex s) pc (pool s) (stdout s).

Definition set_pool (p : list goroutine) (s : state) : state :=
  State (visited s) (sitemap s) (n s) (counter s) (mutex s) (sched s) p (stdout s).

(** One step of the loop of [crawlDomain]. *)
Definition fire_sched (s : state) : option (event * state) :=
  match sched s with
  | SCond =>
      if (0 <? n s)%Z then Some (ECond true, set_sched SRecv s)
      else Some (ECond false, set_sched SReturn s)
  | SRecv => None
  | SRange [] =>
      Some (EPost,
            State (visited s) (sitemap s) (wrap (n s - 1)) (counter s)
              (mutex s) SCond (pool s) (stdout s))
  | SRange (link :: rest) =>
      if eligible s link then
        Some (ESpawn link,
              State (<[link := true]> (visited s)) (sitemap s)
                (wrap (n s + 1)) (counter s) (mutex s) (SRange rest)
                (pool s ++ [Worker link WAcquire]) (stdout s))
      else Some (ESkip link, set_sched (SRange rest) s)
  | SReturn => None
  end.

(** A send on [pages]: it needs the loop to stand at its receive, hands
    the list over and ends the sending goroutine, the [i]-th of the pool. *)
Definition deliver (i : nat) (from : option string) (list : list string)
    (s : state) : option (event * state) :=
  match sched s with
  | SRecv => Some (EDeliver from list,
                   set_pool (delete i (pool s)) (set_sched (SRange list) s))
  | _ => None
  end.

(** One step of a worker for [link] standing at [pc], the [i]-th of the
    pool.  [None]: the worker is blocked. *)
Definition fire_worker (i : nat) (link : string) (pc : worker_pc) (s : state)
    : option (event * state) :=
  let at_pc pc' := <[i := Worker link pc']> (pool s) in
  match pc with
  | WAcquire =>
      if counter s <? limit then
        Some (EAcquire link,
              State (visited s) (sitemap s) (n s) (S (counter s)) (mutex s)
                (sched s) (at_pc WGet) (stdout s))
      else None
  | WGet => Some (EGet link, set_pool (at_pc (WRelease (Get link))) s)
  | WRelease r =>
      match counter s with
      | S c =>
          Some (ERelease link,
                State (visited s) (sitemap s) (n s) c (mutex s) (sched s)
                  (at_pc (WErr r)) (stdout s))
      | O => None
      end
  | WErr r =>
      match snd r with
      | Some err =>
          Some (EPrint link err,
                State (visited s) (sitemap s) (n s) (counter s) (mutex s)
                  (sched s) (at_pc (WLock (getLinks_result r)))
                  (stdout s ++ [err]))
      | None =>
          Some (ENoErr link, set_pool (at_pc (WLock (getLinks_result r))) s)
      end
  | WLock list =>
      if mutex s then None
      else Some (ELock link,
                 State (visited s) (sitemap s) (n s) (counter s) true
                   (sched s) (at_pc (WStore list)) (stdout s))
  | WStore list =>
      Some (EStore link list,
            State (visited s) (<[link := list]> (sitemap s)) (n s)
              (counter s) (mutex s) (sched s) (at_pc (WUnlock list))
              (stdout s))
  | WUnlock list =>
      if mutex s then
        Some (EUnlock link,
              State (visited s) (sitemap s) (n s) (counter s) false
                (sched s) (at_pc (WSend list)) (stdout s))
      else None
  | WSend list => deliver i (Some link) list s
  end.

(** A thread: the loop of [crawlDomain], or the [i]-th live goroutine. *)
Inductive thread : Type :=
| Main
| Go (i : nat).

Definition fire (t : thread) (s : state) : option (event * state) :=
  match t with
  | Main => fire_sched s
  | Go i =>
      match pool s !! i with
      | Some Seed => deliver i None [url] s
      | Some (Worker link pc) => fire_worker i link pc s
      | None => None
      end
  end.

(** The interleaving semantics: any thread that can move may move. *)
Definition step (s : state) (e : event) (s' : state) : Prop :=
  exists t, fire t s = Some (e, s').

Inductive exec : state -> list event -> state -> Prop :=
| exec_nil s : exec s [] s
| exec_snoc s tr s1 e s2 :
    exec s tr s1 -> step s1 e s2 -> exec s (tr ++ [e]) s2.

(** The same steps, one rule per program point; [step_trans] below shows
    that the rules are exactly the steps of [fire]. *)
Inductive trans : state -> event -> state -> Prop :=
| T_cond_true v m k c mu p out :
    (0 < k)%Z ->
    trans (State v m k c mu SCond p out) (ECond true)
          (State v m k c mu SRecv p out)
| T_cond_false v m k c mu p out :
    (k <= 0)%Z ->
    trans (State v m k c mu SCond p out) (ECond false)
          (State v m k c mu SReturn p out)
| T_post v m k c mu p out :
    trans (State v m k c mu (SRange []) p out) EPost
          (State v m (wrap (k - 1)) c mu SCond p out)
| T_spawn v m k c mu link rest p out :
    default false (v !! link) = false ->
    isImageLink link = false ->
    isSameDomain url link = true ->
    trans (State v m k c mu (SRange (link :: rest)) p out) (ESpawn link)
          (State (<[link := true]> v) m (wrap (k + 1)) c mu (SRange rest)
             (p ++ [Worker link WAcquire]) out)
| T_skip v m k c mu link rest p out :
    default false (v !! link) = true \/ isImageLink link = true
      \/ isSameDomain url link = false ->
    trans (State v m k c mu (SRange (link :: rest)) p out) (ESkip link)
          (State v m k c mu (SRange rest) p out)
| T_seed v m k c mu p1 p2 out :
    trans (State v m k c mu SRecv (p1 ++ Seed :: p2) out)
          (EDeliver None [url])
          (State v m k c mu (SRange [url]) (p1 ++ p2) out)
| T_send v m k c mu p1 link list p2 out :
    trans (State v m k c mu SRecv (p1 ++ Worker link (WSend list) :: p2) out)
          (EDeliver (Some link) list)
          (State v m k c mu (SRange list) (p1 ++ p2) out)
| T_acquire v m k c mu pc p1 link p2 out :
    c < limit ->
    trans (State v m k c mu pc (p1 ++ Worker link WAcquire :: p2) out)
          (EAcquire link)
          (State v m k (S c) mu pc (p1 ++ Worker link WGet :: p2) out)
| T_get v m k c mu pc p1 link p2 out :
    trans (State v m k c mu pc (p1 ++ Worker link WGet :: p2) out)
          (EGet link)
          (State v m k c mu pc
             (p1 ++ Worker link (WRelease (Get link)) :: p2) out)
| T_release v m k c mu pc p1 link r p2 out :
    trans (State v m k (S c) mu pc (p1 ++ Worker link (WRelease r) :: p2) out)
          (ERelease link)
          (State v m k c mu pc (p1 ++ Worker link (WErr r) :: p2) out)
| T_print v m k c mu pc p1 link links err p2 out :
    trans (State v m k c mu pc
             (p1 ++ Worker link (WErr (links, Some err)) :: p2) out)
          (EPrint link err)
          (State v m k c mu pc (p1 ++ Worker link (WLock []) :: p2)
             (out ++ [err]))
| T_noerr v m k c mu pc p1 link links p2 out :
    trans (State v m k c mu pc
             (p1 ++ Worker link (WErr (links, None)) :: p2) out)
          (ENoErr link)
          (State v m k c mu pc (p1 ++ Worker link (WLock links) :: p2) out)
| T_lock v m k c pc p1 link list p2 out :
    trans (State v m k c false pc (p1 ++ Worker link (WLock list) :: p2) out)
          (ELock link)
          (State v m k c true pc (p1 ++ Worker link (WStore list) :: p2) out)
| T_store v m k c mu pc p1 link list p2 out :
    trans (State v m k c mu pc (p1 ++ Worker link (WStore list) :: p2) out)
          (EStore link list)
          (State v (<[link := list]> m) k c mu pc
             (p1 ++ Worker link (WUnlock list) :: p2) out)
| T_unlock v m k c pc p1 link list p2 out :
    trans (State v m k c true pc (p1 ++ Worker link (WUnlock list) :: p2) out)
          (EUnlock link)
          (State v m k c false pc (p1 ++ Worker link (WSend list) :: p2) out).

(** The crawl is complete when [crawlDomain] has returned. *)
Definition complete (tr : list event) (s : state) : Prop :=
  exec init tr s /\ sched s = SReturn.

(** One particular schedule, for running the model: the loop moves
    whenever it can, otherwise the first goroutine that can. *)
Fixpoint first_go (i k : nat) (s : state) : option (event * state) :=
  match k with
  | O => None
  | S k' =>
      match fire (Go i) s with
      | Some r => Some r
      | None => first_go (S i) k' s
      end
  end.

Definition next (s : state) : option (event * state) :=
  match fire Main s with
  | Some r => Some r
  | None => first_go 0 (length (pool s)) s
  end.

Fixpoint run (fuel : nat) (s : state) : list event * state :=
  match fuel with
  | O => ([], s)
  | S fuel' =>
      match next s with
      | Some (e, s') => let (tr, s'') := run fuel' s' in (e :: tr, s'')
      | None => ([], s)
      end
  end.

End Crawl.

(* ===================================================================== *)
(** ** The fetcher of the real crawl, [URLFetcher] *)
(* ===================================================================== *)

(** html.NodeType. *)
Inductive NodeType : Type :=
| ErrorNode | TextNode | DocumentNode | ElementNode | CommentNode
| DoctypeNode | RawNode.

(** html.Attribute. *)
Record Attribute : Type := { Namespace : string; Key : string; Val : string }.

(** html.Node: its type, its data (the tag name of an element), its
    attributes, and its children in the order of [FirstChild] and
    [NextSibling]. *)
#[local] Unset Elimination Schemes.
Inductive Node : Type :=
| MkNode (NType : NodeType) (Data : string) (Attr : list Attribute)
         (children : list Node).
#[local] Set Elimination Schemes.

Definition is_element (t : NodeType) : bool :=
  match t with ElementNode => true | _ => false end.

(** The loop [for _, a := range n.Attr] of [checkNode], for the attribute
    named [key]: other attributes are passed over, and so are values that
    [parse] (the call [resp.Request.URL.Parse], followed by [String]) cannot
    resolve; what resolves is appended to [links]. *)
Fixpoint rangeAttr (parse : string -> option string) (key : string)
    (attrs : list Attribute) (links : list string) : list string :=
  match attrs with
  | [] => links
  | a :: attrs' =>
      if negb (String.eqb (Key a) key) then rangeAttr parse key attrs' links
      else
        match parse (Val a) with
        | None => rangeAttr parse key attrs' links
        | Some link => rangeAttr parse key attrs' (links ++ [link])
        end
  end.

(** The closure [checkNode] of [URLFetcher.Get]; the variable [links] it
    appends to is threaded through. *)
Fixpoint checkNode (parse : string -> option string) (n : Node)
    (links : list string) {struct n} : list string :=
  match n with
  | MkNode t data attrs children =>
      let links1 :=
        if is_element t && String.eqb data "a"
        then rangeAttr parse "href" attrs links else links in
      let links2 :=
        if is_element t && String.eqb data "img"
        then rangeAttr parse "src" attrs links1 else links1 in
      (fix siblings (cs : list Node) (links : list string) : list string :=
         match cs with
         | [] => links
         | c :: cs' => siblings cs' (checkNode parse c links)
         end) children links2
  end.

(** What [http.Get] hands back when it does not fail, as far as
    [URLFetcher.Get] looks at it: the status, the outcome of [html.Parse]
    on the body (a document or an error), and the resolution of a reference
    against the URL of the request. *)
Record Response : Type := {
  StatusCode : Z;
  Status : string;
  Parsed : Node + string;
  Resolve : string -> option string
}.

Definition StatusOK : Z := 200.

(** URLFetcher.Get, over [httpGet] for [http.Get] (a response or an error).
    Closing the body has no part in what is returned. *)
Definition URLFetcher_Get (httpGet : string -> Response + string)
    (url : string) : list string * option string :=
  match httpGet url with
  | inr err => ([], Some err)
  | inl resp =>
      if negb (StatusCode resp =? StatusOK)%Z then
        ([], Some ("getting: " +:+ url +:+ ": " +:+ Status resp))
      else
        match Parsed resp with
        | inr err => ([], Some ("parsing " +:+ url +:+ " as HTML: " +:+ err))
        | inl doc => (checkNode (Resolve resp) doc [], None)
        end
  end.

Definition URLFetcher (httpGet : string -> Response + string) : Fetcher :=
  {| Get := URLFetcher_Get httpGet |}.

(* ===================================================================== *)
(** ** The report of [main] *)
(* ===================================================================== *)

(** [sort.Strings]: increasing order of the bytes. *)
Definition sortStrings (l : list string) : list string :=
  merge_sort String.le l.

Definition tab : string := String (ascii_of_nat 9) EmptyString.

(** What [main] prints for one page: the URL, then its links, each after a
    tab.  A line is given without its final newline. *)
Definition page_lines (sitemap : gmap string (list string)) (url : string)
    : list string :=
  url :: ((fun link => tab +:+ link) <$> default [] (sitemap !! url)).

(** What [main] prints after the crawl.  [order] is the order in which
    [for url := range sitemap] happens to yield the keys. *)
Definition report (arg : string) (sitemap : gmap string (list string))
    (order : list string) : list string :=
  let sortedUrls := sortStrings order in
  ("Found " +:+ pretty (size sitemap) +:+ " pages from " +:+ arg)
  :: concat (page_lines sitemap <$> sortedUrls).

(** [main], on the arguments [args] of the process: what is printed, and
    the exit code. *)
Inductive main_prints `{Fetcher} (args : list string)
    : list string -> Z -> Prop :=
| main_usage :
    length args <> 2 ->
    main_prints args [ "Missing URL to crawl"%string ] 1
| main_crawl prog url tr s order :
    args = [prog; url] ->
    complete url tr s ->
    order ≡ₚ (map_to_list (sitemap s)).*1 ->
    main_prints args (stdout s ++ report url (sitemap s) order) 0.

(* ===================================================================== *)
(** * Properties *)
(* ===================================================================== *)

Section StringFacts.

Lemma str_app_cons (c : ascii) (a b : string) :
  String c a +:+ b = String c (a +:+ b).
Proof. reflexivity. Qed.

Lemma str_app_nil_l (a : string) : "" +:+ a = a.
Proof. reflexivity. Qed.

Lemma str_app_nil_r (a : string) : a +:+ "" = a.
Proof. induction a as [|x a IH]; [done | by rewrite str_app_cons, IH]. Qed.

Lemma str_app_assoc (a b c : string) : (a +:+ b) +:+ c = a +:+ (b +:+ c).
Proof. induction a as [|x a IH]; [done | by rewrite !str_app_cons, IH]. Qed.

Lemma str_length_app (a b : string) :
  String.length (a +:+ b) = String.length a + String.length b.
Proof. induction a as [|c a IH]; [done | rewrite str_app_cons; simpl; by rewrite IH]. Qed.

Lemma substring_all (s : string) :
  String.substring 0 (String.length s) s = s.
Proof. induction s as [|c s IH]; simpl; [done | by rewrite IH]. Qed.

Lemma substring_app_l (a b : string) :
  String.substring 0 (String.length a) (a +:+ b) = a.
Proof.
  induction a as [|c a IH].
  - rewrite str_app_nil_l. by destruct b.
  - rewrite str_app_cons. simpl. by rewrite IH.
Qed.

Lemma substring_split (n : nat) (s : string) :
  n <= String.length s ->
  s = String.substring 0 n s +:+ String.substring n (String.length s - n) s.
Proof.
  revert s; induction n as [|n IH]; intros s Hn.
  - rewrite Nat.sub_0_r, substring_all. by destruct s.
  - destruct s as [|c s]; simpl in *; [lia |].
    rewrite str_app_cons. f_equal. apply IH. lia.
Qed.

Lemma HasPrefix_spec (s p : string) :
  GoStrings.HasPrefix s p = true <-> exists rest, s = p +:+ rest.
Proof.
  unfold GoStrings.HasPrefix. rewrite andb_true_iff, Nat.leb_le, String.eqb_eq. split.
  - intros [Hlen Hsub].
    exists (String.substring (String.length p) (String.length s - String.length p) s).
    rewrite <- Hsub at 1. by apply substring_split.
  - intros [rest ->]. split.
    + rewrite str_length_app. lia.
    + apply substring_app_l.
Qed.

End StringFacts.

(* --------------------------------------------------------------------- *)
(** ** The derivative matcher decides the denotation *)
(* --------------------------------------------------------------------- *)

Section RegexpFacts.
Import Regexp.

Definition at_end (rest : list ascii) : bool :=
  match rest with [] => true | _ => false end.

Lemma nullable_mono (r : regex) :
  nullable false r = true -> nullable true r = true.
Proof.
  induction r; simpl; try done.
  - rewrite !andb_true_iff. tauto.
  - rewrite !orb_true_iff. tauto.
Qed.

Lemma nullable_den (r : regex) (e : bool) (rest : list ascii) :
  nullable e r = true -> (e = true -> rest = []) -> den r [] rest.
Proof.
  induction r as [| |p|r1 IH1 r2 IH2|r1 IH1 r2 IH2|r IH|]; simpl; intros Hn He;
    try done.
  - constructor.
  - apply andb_true_iff in Hn as [H1 H2].
    change (den (Concat r1 r2) ([] ++ []) rest).
    constructor; [apply IH1 | apply IH2]; done.
  - apply orb_true_iff in Hn as [H1|H2].
    + apply den_alt_l. by apply IH1.
    + apply den_alt_r. by apply IH2.
  - constructor.
  - subst e. rewrite He by done. constructor.
Qed.

Lemma den_nullable (r : regex) (w rest : list ascii) :
  den r w rest -> w = [] -> nullable (at_end rest) r = true.
Proof.
  induction 1 as [ | | r1 r2 w1 w2 rest _ IH1 _ IH2 | r1 r2 w rest _ IH
                 | r1 r2 w rest _ IH | | | ]; simpl; intros Hw; try done.
  - apply app_eq_nil in Hw as [-> ->]. simpl in IH1.
    by rewrite IH1, IH2.
  - by rewrite IH.
  - rewrite IH by done. apply orb_true_r.
Qed.

Lemma deriv_sound (c : ascii) (r : regex) :
  forall w rest, den (deriv c r) w rest -> den r (c :: w) rest.
Proof.
  induction r as [| |p|r1 IH1 r2 IH2|r1 IH1 r2 IH2|r IH|]; simpl; intros w rest H;
    try (by inversion H).
  - destruct (p c) eqn:Hp; inversion H; subst. by constructor.
  - assert (Hleft : forall w, den (Concat (deriv c r1) r2) w rest ->
                              den (Concat r1 r2) (c :: w) rest).
    { intros w' H'. inversion H'; subst.
      change (den (Concat r1 r2) ((c :: w1) ++ w2) rest).
      constructor; [by apply IH1 | done]. }
    destruct (nullable false r1) eqn:Hn; [| by apply Hleft].
    inversion H; subst; [by apply Hleft |].
    change (den (Concat r1 r2) ([] ++ c :: w) rest).
    constructor; [| by apply IH2].
    by apply (nullable_den r1 false).
  - inversion H; subst; [apply den_alt_l | apply den_alt_r]; auto.
  - inversion H; subst.
    change (den (Star r) ((c :: w1) ++ w2) rest).
    constructor; [by apply IH | done].
Qed.

Lemma deriv_complete (c : ascii) (r : regex) (w0 rest : list ascii) :
  den r w0 rest -> forall w, w0 = c :: w -> den (deriv c r) w rest.
Proof.
  induction 1 as [ | p c0 rest Hp | r1 r2 w1 w2 rest H1 IH1 H2 IH2
                 | r1 r2 w0 rest _ IH | r1 r2 w0 rest _ IH |
                 | r w1 w2 rest H1 IH1 H2 IH2 | ]; simpl; intros w Hw; try done.
  - injection Hw as -> <-. rewrite Hp. constructor.
  - destruct w1 as [|c1 w1]; simpl in Hw.
    + subst w2. apply den_nullable in H1; [| done]. simpl in H1.
      rewrite H1. apply den_alt_r. by apply IH2.
    + injection Hw as -> <-.
      assert (den (Concat (deriv c r1) r2) (w1 ++ w2) rest)
        by (constructor; [by apply IH1 | done]).
      destruct (nullable false r1); [by apply den_alt_l | done].
  - apply den_alt_l. by apply IH.
  - apply den_alt_r. by apply IH.
  - destruct w1 as [|c1 w1]; simpl in Hw.
    + by apply IH2.
    + injection Hw as -> <-. constructor; [by apply IH1 | done].
Qed.

Lemma matches_den (r : regex) (s : list ascii) :
  matches r s = true <-> den r s [].
Proof.
  revert r; induction s as [|c s IH]; intros r; simpl.
  - split.
    + intros H. by apply (nullable_den r true).
    + intros H. by apply (den_nullable r [] []).
  - rewrite IH. split.
    + apply deriv_sound.
    + intros H. by eapply deriv_complete.
Qed.

(** Inversion principles for the denotation, one per operator. *)

Lemma den_nomatch w rest : den NoMatch w rest <-> False.
Proof. split; [inversion 1 | done]. Qed.

Lemma den_empty_iff w rest : den EmptyMatch w rest <-> w = [].
Proof. split; [by inversion 1 | intros ->; constructor]. Qed.

Lemma den_class_iff p w rest :
  den (CharClass p) w rest <-> exists c, w = [c] /\ p c = true.
Proof.
  split.
  - inversion 1; subst. eauto.
  - intros (c & -> & Hp). by constructor.
Qed.

Lemma den_concat_iff r1 r2 w rest :
  den (Concat r1 r2) w rest <->
  exists w1 w2, w = w1 ++ w2 /\ den r1 w1 (w2 ++ rest) /\ den r2 w2 rest.
Proof.
  split.
  - inversion 1; subst. eauto.
  - intros (w1 & w2 & -> & H1 & H2). by constructor.
Qed.

Lemma den_alt_iff r1 r2 w rest :
  den (Alternate r1 r2) w rest <-> den r1 w rest \/ den r2 w rest.
Proof.
  split.
  - inversion 1; subst; auto.
  - intros [H|H]; [by apply den_alt_l | by apply den_alt_r].
Qed.

Lemma den_end_iff w rest : den EndText w rest <-> w = [] /\ rest = [].
Proof. split; [by inversion 1 | intros [-> ->]; constructor]. Qed.

Lemma den_star_class p w rest :
  den (Star (CharClass p)) w rest <-> Forall (fun c => p c = true) w.
Proof.
  split.
  - intros H. remember (Star (CharClass p)) as r eqn:Hr.
    induction H as [ | | | | | | r w1 w2 rest H1 _ H2 IH2 | ]; try done.
    injection Hr as ->. apply den_class_iff in H1 as (c & -> & Hp).
    constructor; [done | by apply IH2].
  - induction 1 as [|c w Hp _ IH]; [constructor |].
    change (den (Star (CharClass p)) ([c] ++ w) rest).
    constructor; [by constructor | done].
Qed.

Lemma den_plus_class p w rest :
  den (Plus (CharClass p)) w rest <->
  w <> [] /\ Forall (fun c => p c = true) w.
Proof.
  unfold Plus. rewrite den_concat_iff. split.
  - intros (w1 & w2 & -> & H1 & H2).
    apply den_class_iff in H1 as (c & -> & Hp).
    apply den_star_class in H2. split; [done | by constructor].
  - intros [Hne Hall]. destruct w as [|c w]; [done |].
    inversion Hall; subst. exists [c], w. split; [done |]. split.
    + by constructor.
    + by apply den_star_class.
Qed.

Lemma den_wordfold word w rest :
  den (WordFold word) w rest <-> to_lower <$> w = to_lower <$> bytes word.
Proof.
  revert w; induction word as [|c word IH]; intros w; simpl.
  - rewrite den_empty_iff. split; [by intros -> | by destruct w].
  - rewrite den_concat_iff. split.
    + intros (w1 & w2 & -> & H1 & H2).
      apply den_class_iff in H1 as (x & -> & Hx).
      apply Ascii.eqb_eq in Hx. apply IH in H2. csimpl. by rewrite Hx, H2.
    + destruct w as [|x w]; [done |]. csimpl. intros [= Hx Hw].
      exists [x], w. split; [done |]. split.
      * constructor. by apply Ascii.eqb_eq.
      * by apply IH.
Qed.

Lemma den_words (l : list string) w rest :
  den (foldr (fun w r => Alternate (WordFold w) r) NoMatch l) w rest <->
  exists word, word ∈ l /\ to_lower <$> w = to_lower <$> bytes word.
Proof.
  induction l as [|x l IH]; simpl.
  - rewrite den_nomatch. split; [done |]. intros (word & Hin & _).
    by apply elem_of_nil in Hin.
  - rewrite den_alt_iff, den_wordfold, IH. split.
    + intros [H | (word & Hin & H)].
      * exists x. split; [left | done].
      * exists word. split; [by right | done].
    + intros (word & Hin & H). apply elem_of_cons in Hin as [-> | Hin]; eauto.
Qed.

Lemma den_any_star w rest : den (Star AnyByte) w rest.
Proof. apply den_star_class. by apply Forall_forall. Qed.

(** Strings and their bytes. *)

Fixpoint unbytes (l : list ascii) : string :=
  match l with
  | [] => EmptyString
  | c :: l' => String c (unbytes l')
  end.

Fixpoint lower (s : string) : string :=
  match s with
  | EmptyString => EmptyString
  | String c s' => String (to_lower c) (lower s')
  end.

Lemma bytes_unbytes l : bytes (unbytes l) = l.
Proof. induction l as [|c l IH]; simpl; [done | by rewrite IH]. Qed.

Lemma unbytes_bytes s : unbytes (bytes s) = s.
Proof. induction s as [|c s IH]; simpl; [done | by rewrite IH]. Qed.

Lemma bytes_app a b : bytes (a +:+ b) = bytes a ++ bytes b.
Proof. induction a as [|c a IH]; [done | rewrite str_app_cons; simpl; by rewrite IH]. Qed.

Lemma unbytes_app a b : unbytes (a ++ b) = unbytes a +:+ unbytes b.
Proof. induction a as [|c a IH]; [done | simpl; by rewrite str_app_cons, IH]. Qed.

Lemma bytes_lower s : bytes (lower s) = to_lower <$> bytes s.
Proof. induction s as [|c s IH]; [done | csimpl; by rewrite IH]. Qed.

Lemma bytes_inj a b : bytes a = bytes b -> a = b.
Proof. intros H. by rewrite <- (unbytes_bytes a), H, unbytes_bytes. Qed.

(** The words of the pattern are already in lower case. *)
Lemma imageExtensions_lower word :
  word ∈ imageExtensions -> lower word = word.
Proof.
  unfold imageExtensions. rewrite !elem_of_cons, elem_of_nil.
  intros [->|[->|[->|[->|[->|[]]]]]]; reflexivity.
Qed.

Lemma folds_to_extension (ext : list ascii) :
  (exists word, word ∈ imageExtensions /\ to_lower <$> ext = to_lower <$> bytes word)
  <-> lower (unbytes ext) ∈ imageExtensions.
Proof.
  split.
  - intros (word & Hin & H).
    replace (lower (unbytes ext)) with word; [done |].
    apply bytes_inj. rewrite bytes_lower, bytes_unbytes, H, <- bytes_lower.
    by rewrite imageExtensions_lower.
  - intros Hin. exists (lower (unbytes ext)). split; [done |].
    rewrite <- (bytes_lower (lower _)), (imageExtensions_lower _ Hin).
    by rewrite bytes_lower, bytes_unbytes.
Qed.

(** What the pattern of [isImageLink] denotes: a non-empty run of
    non-space bytes, a dot, and one of the five words in any case, ending
    where the text ends. *)
Lemma imagePattern_den w rest :
  den imagePattern w rest <->
  rest = [] /\
  exists pre ext, w = pre ++ "."%char :: ext /\ pre <> [] /\
    Forall (fun c => is_space c = false) pre /\
    lower (unbytes ext) ∈ imageExtensions.
Proof.
  unfold imagePattern, NotSpace, Lit.
  rewrite den_concat_iff. split.
  - intros (pre & w2 & -> & Hpre & H2).
    apply den_plus_class in Hpre as [Hne Hpre].
    apply den_concat_iff in H2 as (w3 & w4 & -> & H3 & H4).
    apply den_end_iff in H4 as [-> ->].
    apply den_concat_iff in H3 as (dot & ext & -> & Hdot & Hext).
    apply den_class_iff in Hdot as (c & -> & Hc). apply Ascii.eqb_eq in Hc as <-.
    apply den_words, folds_to_extension in Hext.
    split; [done |]. exists pre, ext. rewrite !app_nil_r. repeat split; try done.
    eapply Forall_impl; [exact Hpre |]. intros x; simpl. by destruct (is_space x).
  - intros (-> & pre & ext & -> & Hne & Hpre & Hext).
    exists pre, ("."%char :: ext). split; [done |]. split.
    + apply den_plus_class. split; [done |].
      eapply Forall_impl; [exact Hpre |]. by intros x; simpl; intros ->.
    + apply den_concat_iff. exists ("."%char :: ext), []. rewrite app_nil_r.
      split; [done |]. split; [| by apply den_end_iff].
      apply den_concat_iff. exists ["."%char], ext. split; [done |]. split.
      * apply den_class_iff. exists "."%char. by rewrite Ascii.eqb_refl.
      * by apply den_words, folds_to_extension.
Qed.

(** [MatchString] with the pattern of [isImageLink], on bytes. *)
Lemma MatchString_imagePattern (s : string) :
  MatchString imagePattern s = true <->
  exists pre c ext, bytes s = pre ++ c :: "."%char :: ext /\
    is_space c = false /\ lower (unbytes ext) ∈ imageExtensions.
Proof.
  unfold MatchString. rewrite matches_den, den_concat_iff. split.
  - intros (a & w & Hs & _ & H).
    apply den_concat_iff in H as (m & b & -> & Hm & _).
    apply imagePattern_den in Hm as (Hb & pre & ext & -> & Hne & Hpre & Hext).
    rewrite app_nil_r in Hb. subst b. rewrite app_nil_r in Hs.
    destruct (exists_last Hne) as [pre1 [c Heq]]. subst pre.
    apply Forall_app in Hpre as [_ Hc]. rewrite Forall_singleton in Hc.
    exists (a ++ pre1), c, ext. split; [| by split].
    rewrite Hs. by rewrite <- !app_assoc.
  - intros (pre & c & ext & Hs & Hc & Hext).
    exists pre, (c :: "."%char :: ext). split; [done |].
    split; [apply den_any_star |].
    apply den_concat_iff. exists (c :: "."%char :: ext), [].
    rewrite !app_nil_r. split; [done |]. split; [| apply den_any_star].
    apply imagePattern_den. split; [done |].
    exists [c], ext. repeat split; try done. by apply Forall_singleton.
Qed.

End RegexpFacts.


Example isImageLink_gopher : isImageLink "http://golang.org/images/gopher.jpg" = true.
Proof. reflexivity. Qed.
Example isImageLink_upper : isImageLink "http://golang.org/images/gopher.TiFf" = true.
Proof. reflexivity. Qed.
Example isImageLink_page : isImageLink "http://golang.org/test.html" = false.
Proof. reflexivity. Qed.
Example isImageLink_bare : isImageLink ".jpg" = false.
Proof. reflexivity. Qed.
Example isImageLink_q : isImageLink "http://golang.org/a.jpg?x=1" = false.
Proof. reflexivity. Qed.
Example isImageLink_sp : isImageLink "a .jpg" = false.
Proof. reflexivity. Qed.
Example isImageLink_nl : isImageLink ("a.jpg" +:+ String (ascii_of_nat 10) "") = false.
Proof. reflexivity. Qed.
Example isSameDomain_1 : isSameDomain "http://golang.org" "http://golang.org2/x" = true.
Proof. reflexivity. Qed.
Example isSameDomain_2 : isSameDomain "http://golang.org" "https://golang.org/x" = false.
Proof. reflexivity. Qed.


(* --------------------------------------------------------------------- *)
(** ** The steps of the crawl, rule by rule *)
(* --------------------------------------------------------------------- *)

Section Steps.
Context {fetcher : Fetcher}.
Variable url : string.

Lemma pool_split (p : list goroutine) (i : nat) (g : goroutine) :
  p !! i = Some g ->
  exists p1 p2, p = p1 ++ g :: p2 /\ length p1 = i /\
    delete i p = p1 ++ p2 /\ forall g', <[i := g']> p = p1 ++ g' :: p2.
Proof.
  intros Hi. exists (take i p), (drop (S i) p).
  pose proof (lookup_lt_Some _ _ _ Hi) as Hlt.
  split; [by rewrite take_drop_middle |].
  split; [rewrite length_take; lia |].
  split; [by rewrite delete_take_drop |].
  intros g'. by rewrite insert_take_drop.
Qed.

Lemma pool_middle (p1 p2 : list goroutine) (g : goroutine) :
  (p1 ++ g :: p2) !! length p1 = Some g /\
  delete (length p1) (p1 ++ g :: p2) = p1 ++ p2 /\
  forall g', <[length p1 := g']> (p1 ++ g :: p2) = p1 ++ g' :: p2.
Proof.
  split; [by rewrite list_lookup_middle |].
  split.
  - induction p1 as [|x p1 IH]; simpl; [done | by rewrite IH].
  - intros g'. induction p1 as [|x p1 IH]; simpl; [done | by rewrite IH].
Qed.

Local Ltac main :=
  exists Main; unfold fire, fire_sched, eligible, seen; simpl.

Lemma step_trans (s : state) (e : event) (s' : state) :
  step url s e s' <-> trans url s e s'.
Proof.
  split.
  - intros [t Ht]. destruct s as [v m k c mu pc p out].
    destruct t as [|i]; simpl in Ht.
    + unfold fire_sched in Ht; simpl in Ht.
      destruct pc as [| |[|link rest]|]; try done.
      * destruct (0 <? k)%Z eqn:Hk; injection Ht as <- <-.
        -- constructor. by apply Z.ltb_lt.
        -- constructor. apply Z.ltb_ge in Hk. lia.
      * injection Ht as <- <-. constructor.
      * unfold eligible, seen in Ht; simpl in Ht.
        destruct (default false (v !! link)) eqn:Hv;
          destruct (isImageLink link) eqn:Himg;
          destruct (isSameDomain url link) eqn:Hdom;
          simpl in Ht; injection Ht as <- <-;
          constructor; auto.
    + destruct (p !! i) as [g|] eqn:Hi; [| done].
      destruct (pool_split p i g Hi) as (p1 & p2 & -> & Hlen & Hdel & Hins).
      destruct g as [|link wpc].
      * unfold deliver in Ht; simpl in Ht.
        destruct pc; try done. injection Ht as <- <-.
        unfold set_pool, set_sched; simpl. rewrite Hdel. constructor.
      * destruct wpc as [| |r|[links [err|]]|list|list|list|list];
          simpl in Ht; unfold set_pool, set_sched in Ht; simpl in Ht;
          rewrite ?Hins in Ht.
        -- destruct (c <? limit) eqn:Hc; [| done]. injection Ht as <- <-.
           constructor. by apply Nat.ltb_lt.
        -- injection Ht as <- <-. constructor.
        -- destruct c; [done |]. injection Ht as <- <-. constructor.
        -- injection Ht as <- <-. constructor.
        -- injection Ht as <- <-. constructor.
        -- destruct mu; [done |]. injection Ht as <- <-. constructor.
        -- injection Ht as <- <-. constructor.
        -- destruct mu; [| done]. injection Ht as <- <-. constructor.
        -- unfold deliver in Ht; simpl in Ht.
           destruct pc; try done. injection Ht as <- <-.
           unfold set_pool, set_sched; simpl. rewrite Hdel. constructor.
  - intros H.
    assert (Hgo : forall (s0 : state) p1 g p2, pool s0 = p1 ++ g :: p2 ->
      fire url (Go (length p1)) s0 =
        match g with
        | Seed => deliver (length p1) None [url] s0
        | Worker link pc => fire_worker (length p1) link pc s0
        end).
    { intros s0 p1 g p2 Hp. simpl. rewrite Hp.
      by rewrite (proj1 (pool_middle p1 p2 g)). }
    destruct H.
    + main. by rewrite (proj2 (Z.ltb_lt _ _)).
    + main. by rewrite (proj2 (Z.ltb_ge _ _)) by lia.
    + by main.
    + main. by repeat match goal with Heq : _ = _ |- _ => rewrite Heq; clear Heq end.
    + main. match goal with Hor : _ \/ _ |- _ => destruct Hor as [-> | [-> | ->]] end;
        simpl; try done;
        by destruct (default false (v !! link)), (isImageLink link).
    + exists (Go (length p1)). erewrite Hgo by done.
      unfold deliver, set_pool, set_sched; simpl.
      by rewrite (proj1 (proj2 (pool_middle p1 p2 _))).
    + exists (Go (length p1)). erewrite Hgo by done. simpl.
      unfold deliver, set_pool, set_sched; simpl.
      by rewrite (proj1 (proj2 (pool_middle p1 p2 _))).
    + exists (Go (length p1)). erewrite Hgo by done. simpl.
      rewrite (proj2 (Nat.ltb_lt _ _)) by done.
      by rewrite (proj2 (proj2 (pool_middle p1 p2 _))).
    + exists (Go (length p1)). erewrite Hgo by done. simpl.
      unfold set_pool; simpl.
      by rewrite (proj2 (proj2 (pool_middle p1 p2 _))).
    + exists (Go (length p1)). erewrite Hgo by done. simpl.
      by rewrite (proj2 (proj2 (pool_middle p1 p2 _))).
    + exists (Go (length p1)). erewrite Hgo by done. simpl.
      by rewrite (proj2 (proj2 (pool_middle p1 p2 _))).
    + exists (Go (length p1)). erewrite Hgo by done. simpl.
      unfold set_pool; simpl.
      by rewrite (proj2 (proj2 (pool_middle p1 p2 _))).
    + exists (Go (length p1)). erewrite Hgo by done. simpl.
      by rewrite (proj2 (proj2 (pool_middle p1 p2 _))).
    + exists (Go (length p1)). erewrite Hgo by done. simpl.
      by rewrite (proj2 (proj2 (pool_middle p1 p2 _))).
    + exists (Go (length p1)). erewrite Hgo by done. simpl.
      by rewrite (proj2 (proj2 (pool_middle p1 p2 _))).
Qed.

Lemma exec_inv (P : list event -> state -> Prop) (s0 : state) :
  P [] s0 ->
  (forall tr s e s', exec url s0 tr s -> P tr s -> trans url s e s' ->
                     P (tr ++ [e]) s') ->
  forall tr s, exec url s0 tr s -> P tr s.
Proof.
  intros H0 Hstep tr s H. induction H as [|s0 tr s1 e s2 H IH Hs]; [done |].
  eapply Hstep; [done | by apply IH | by apply step_trans].
Qed.

(** *** Well-formed states *)

(** The links the workers of a pool were started for. *)
Definition link_of (g : goroutine) : option string :=
  match g with
  | Seed => None
  | Worker link _ => Some link
  end.

Definition links_of (p : list goroutine) : list string := omap link_of p.

(** What [getLinks(link)] returns. *)
Definition result (link : string) : list string := getLinks_result (Get link).

(** The values a worker carries are those of its own fetch. *)
Definition pc_ok (link : string) (pc : worker_pc) : Prop :=
  match pc with
  | WAcquire | WGet => True
  | WRelease r | WErr r => r = Get link
  | WLock l | WStore l | WUnlock l | WSend l => l = result link
  end.

(** Whether a worker has written its entry of [sitemap]. *)
Definition stored (pc : worker_pc) : bool :=
  match pc with
  | WUnlock _ | WSend _ => true
  | _ => false
  end.

Record wf (s : state) : Prop := {
  wf_visited : forall link b, visited s !! link = Some b ->
    b = true /\ isImageLink link = false /\ isSameDomain url link = true;
  wf_nodup : NoDup (links_of (pool s));
  wf_worker : forall link pc, Worker link pc ∈ pool s ->
    is_Some (visited s !! link) /\ pc_ok link pc /\
    sitemap s !! link = (if stored pc then Some (result link) else None);
  wf_sitemap : forall link l, sitemap s !! link = Some l ->
    is_Some (visited s !! link) /\ l = result link;
  wf_done : forall link, is_Some (visited s !! link) ->
    link ∈ links_of (pool s) \/ is_Some (sitemap s !! link);
  wf_seed : Seed ∈ pool s ->
    pool s = [Seed] /\ visited s = ∅ /\ sitemap s = ∅ /\ n s = 1%Z /\
    (sched s = SCond \/ sched s = SRecv)
}.

Lemma links_of_app p1 p2 : links_of (p1 ++ p2) = links_of p1 ++ links_of p2.
Proof. apply omap_app. Qed.

Lemma links_of_middle p1 link pc p2 :
  links_of (p1 ++ Worker link pc :: p2) = links_of p1 ++ link :: links_of p2.
Proof. by rewrite links_of_app. Qed.

Lemma elem_of_links_of link p :
  link ∈ links_of p <-> exists pc, Worker link pc ∈ p.
Proof.
  unfold links_of. rewrite list_elem_of_omap. split.
  - intros ([|l pc] & Hin & Heq); simplify_eq/=. eauto.
  - intros [pc Hin]. by exists (Worker link pc).
Qed.

Lemma elem_of_middle (g g' : goroutine) p1 p2 :
  g ∈ p1 ++ g' :: p2 <-> g = g' \/ g ∈ p1 ++ p2.
Proof. rewrite !elem_of_app, elem_of_cons. tauto. Qed.

Lemma wf_init : wf (init).
Proof.
  split; simpl.
  - intros link b. by rewrite lookup_empty.
  - constructor.
  - intros link pc Hin. apply list_elem_of_singleton in Hin. done.
  - intros link l. by rewrite lookup_empty.
  - intros link. rewrite lookup_empty. by intros [? ?].
  - auto 10.
Qed.

Lemma seen_false_visited (v : gmap string bool) link :
  (forall l b, v !! l = Some b -> b = true /\ isImageLink l = false
                                 /\ isSameDomain url l = true) ->
  default false (v !! link) = false -> v !! link = None.
Proof.
  intros Hv Hs. destruct (v !! link) as [b|] eqn:Hl; [| done].
  destruct (Hv _ _ Hl) as [-> _]. done.
Qed.

Lemma wf_step_visited s e s' :
  wf s -> trans url s e s' -> forall link b, visited s' !! link = Some b ->
    b = true /\ isImageLink link = false /\ isSameDomain url link = true.
Proof.
  intros [Hv _ _ _ _ _] Ht. destruct Ht; simpl in *; try exact Hv.
  intros l b. rewrite lookup_insert. case_decide; [| by apply Hv].
  intros [= <-]. by subst.
Qed.

Lemma wf_step_nodup s e s' :
  wf s -> trans url s e s' -> NoDup (links_of (pool s')).
Proof.
  intros [Hv Hnd Hw _ _ _] Ht. destruct Ht; simpl in *;
    rewrite ?links_of_middle in *; try done.
  - simpl. apply NoDup_app. split; [done |].
    split; [| apply NoDup_singleton].
    intros l Hl ->%list_elem_of_singleton.
    apply elem_of_links_of in Hl as [pc Hl].
    destruct (Hw _ _ Hl) as ([b Hb] & _).
    by rewrite (seen_false_visited _ _ Hv) in Hb.
  - by rewrite links_of_app in *.
  - rewrite links_of_app in *. simpl in Hnd.
    apply NoDup_app in Hnd as (H1 & H2 & H3). apply NoDup_cons in H3 as [H3 H4].
    apply NoDup_app. split; [done |]. split; [| done].
    intros l Hl Hl'. apply (H2 l Hl). by right.
Qed.

Lemma nodup_other p1 link pc p2 link' pc' :
  NoDup (links_of (p1 ++ Worker link pc :: p2)) ->
  Worker link' pc' ∈ p1 ++ p2 -> link' <> link.
Proof.
  rewrite links_of_middle. intros Hnd Hin ->.
  apply NoDup_app in Hnd as (H1 & H2 & H3). apply NoDup_cons in H3 as [H3 H4].
  assert (Hl : link ∈ links_of p1 \/ link ∈ links_of p2).
  { rewrite <- elem_of_app, <- links_of_app. apply elem_of_links_of. eauto. }
  destruct Hl as [Hl | Hl]; [| done]. apply (H2 _ Hl). by left.
Qed.

Lemma wf_step_worker s e s' :
  wf s -> trans url s e s' -> forall link pc, Worker link pc ∈ pool s' ->
    is_Some (visited s' !! link) /\ pc_ok link pc /\
    sitemap s' !! link = (if stored pc then Some (result link) else None).
Proof.
  intros [Hv Hnd Hw Hsm _ _] Ht.
  destruct Ht; simpl in *; try exact Hw; intros l pc' Hin.
  - (* spawn *)
    apply elem_of_app in Hin as [Hin | Hin%list_elem_of_singleton].
    + destruct (Hw _ _ Hin) as (Hs & ? & ?). split; [| done].
      rewrite lookup_insert_is_Some. destruct (decide (link = l)); auto.
    + injection Hin as -> ->. rewrite lookup_insert_eq.
      split; [done |]. split; [done |]. simpl.
      destruct (m !! link) as [x|] eqn:Hm; [| done].
      destruct (Hsm _ _ Hm) as [[b Hb] _].
      by rewrite (seen_false_visited _ _ Hv) in Hb.
  - apply Hw. apply elem_of_middle. by right.
  - apply Hw. apply elem_of_middle. by right.
  - apply elem_of_middle in Hin as [[= -> ->] | Hin].
    + destruct (Hw link WAcquire) as (? & ? & ?); [apply elem_of_middle; by left |].
      done.
    + apply Hw, elem_of_middle. by right.
  - apply elem_of_middle in Hin as [[= -> ->] | Hin].
    + destruct (Hw link WGet) as (? & ? & ?); [apply elem_of_middle; by left |].
      done.
    + apply Hw, elem_of_middle. by right.
  - apply elem_of_middle in Hin as [[= -> ->] | Hin].
    + destruct (Hw link (WRelease r)) as (? & ? & ?);
        [apply elem_of_middle; by left |]. done.
    + apply Hw, elem_of_middle. by right.
  - apply elem_of_middle in Hin as [[= -> ->] | Hin].
    + destruct (Hw link (WErr (links, Some err))) as (? & Hok & ?);
        [apply elem_of_middle; by left |].
      simpl in *. unfold result. by rewrite <- Hok.
    + apply Hw, elem_of_middle. by right.
  - apply elem_of_middle in Hin as [[= -> ->] | Hin].
    + destruct (Hw link (WErr (links, None))) as (? & Hok & ?);
        [apply elem_of_middle; by left |].
      simpl in *. unfold result. by rewrite <- Hok.
    + apply Hw, elem_of_middle. by right.
  - apply elem_of_middle in Hin as [[= -> ->] | Hin].
    + destruct (Hw link (WLock list)) as (? & ? & ?);
        [apply elem_of_middle; by left |]. done.
    + apply Hw, elem_of_middle. by right.
  - apply elem_of_middle in Hin as [[= -> ->] | Hin].
    + destruct (Hw link (WStore list)) as (? & Hok & ?);
        [apply elem_of_middle; by left |].
      simpl in *. rewrite lookup_insert_eq. by rewrite Hok.
    + rewrite lookup_insert_ne by (symmetry; by eapply nodup_other).
      apply Hw, elem_of_middle. by right.
  - apply elem_of_middle in Hin as [[= -> ->] | Hin].
    + destruct (Hw link (WUnlock list)) as (? & ? & ?);
        [apply elem_of_middle; by left |]. done.
    + apply Hw, elem_of_middle. by right.
Qed.

Lemma wf_step_sitemap s e s' :
  wf s -> trans url s e s' -> forall link l, sitemap s' !! link = Some l ->
    is_Some (visited s' !! link) /\ l = result link.
Proof.
  intros [Hv Hnd Hw Hsm _ _] Ht.
  destruct Ht; simpl in *; try exact Hsm; intros l x Hl.
  - destruct (Hsm _ _ Hl) as [Hs ?]. split; [| done].
    rewrite lookup_insert_is_Some. destruct (decide (link = l)); auto.
  - destruct (Hw link (WStore list)) as (? & Hok & ?);
      [apply elem_of_middle; by left |]. simpl in Hok.
    rewrite lookup_insert in Hl. case_decide; [| by apply Hsm].
    simplify_eq. done.
Qed.

Lemma wf_step_done s e s' :
  wf s -> trans url s e s' -> forall link, is_Some (visited s' !! link) ->
    link ∈ links_of (pool s') \/ is_Some (sitemap s' !! link).
Proof.
  intros [Hv Hnd Hw Hsm Hd Hsd] Ht.
  destruct Ht; simpl in *; try exact Hd; intros l Hl;
    rewrite ?links_of_middle in *; try (by apply Hd).
  - rewrite lookup_insert_is_Some in Hl.
    rewrite elem_of_app, list_elem_of_singleton.
    destruct (decide (link = l)) as [-> | Hne]; [by left; right |].
    destruct Hl as [? | [_ Hl]]; [done |].
    destruct (Hd _ Hl); auto.
  - destruct (Hsd ltac:(apply elem_of_middle; by left)) as (_ & -> & _).
    rewrite lookup_empty in Hl. by destruct Hl.
  - rewrite links_of_app. destruct (Hd _ Hl) as [Hin | ?]; [| by right].
    rewrite elem_of_app, elem_of_cons in Hin.
    destruct Hin as [? | [-> | ?]]; [left; apply elem_of_app; by left | |
                                     left; apply elem_of_app; by right].
    right. destruct (Hw link (WSend list)) as (_ & _ & ->);
      [apply elem_of_middle; by left |]. done.
  - destruct (Hd _ Hl) as [? | Hs]; [by left |]. right.
    rewrite lookup_insert_is_Some. destruct (decide (link = l)); auto.
Qed.

Lemma wf_step_seed s e s' :
  wf s -> trans url s e s' -> Seed ∈ pool s' ->
    pool s' = [Seed] /\ visited s' = ∅ /\ sitemap s' = ∅ /\ n s' = 1%Z /\
    (sched s' = SCond \/ sched s' = SRecv).
Proof.
  intros [_ _ _ _ _ Hsd] Ht.
  assert (Hno : forall p1 link pc p2, pool s = p1 ++ Worker link pc :: p2 ->
                  Seed ∈ p1 ++ p2 -> False).
  { intros p1 link pc p2 Hp Hin.
    destruct Hsd as (Hp' & _); [rewrite Hp; apply elem_of_middle; by right |].
    rewrite Hp in Hp'. by destruct p1 as [|? [|? ?]]. }
  destruct Ht; simpl in *; intros Hin;
    try (apply elem_of_middle in Hin as [? | Hin]; [done |]);
    try (by destruct (Hno _ _ _ _ eq_refl Hin)).
  - destruct (Hsd Hin) as (? & ? & ? & ? & ?). auto 10.
  - destruct (Hsd Hin) as (? & ? & ? & ? & ?). lia.
  - by destruct (Hsd Hin) as (? & ? & ? & ? & [? | ?]).
  - rewrite app_nil_r in Hin.
    by destruct (Hsd Hin) as (? & ? & ? & ? & [? | ?]).
  - by destruct (Hsd Hin) as (? & ? & ? & ? & [? | ?]).
  - destruct Hsd as (Hp & _); [apply elem_of_middle; by left |].
    destruct p1 as [|? [|? ?]]; simplify_eq/=. by apply elem_of_nil in Hin.
Qed.

Lemma wf_step s e s' : wf s -> trans url s e s' -> wf s'.
Proof.
  intros Hwf Ht. split.
  - by eapply wf_step_visited.
  - by eapply wf_step_nodup.
  - by eapply wf_step_worker.
  - by eapply wf_step_sitemap.
  - by eapply wf_step_done.
  - by eapply wf_step_seed.
Qed.

Lemma wf_exec tr s : exec url init tr s -> wf s.
Proof.
  intros H. apply (exec_inv (fun _ s => wf s) init) with (tr := tr);
    [apply wf_init | | done].
  intros. by eapply wf_step.
Qed.

(** *** The limiter and the mutex *)

Fixpoint count (f : goroutine -> bool) (p : list goroutine) : nat :=
  match p with
  | [] => 0
  | g :: p' => (if f g then 1 else 0) + count f p'
  end.

(** A worker between [counter <- struct{}{}] and [<-counter]: its call of
    [fetcher.Get] is in flight and it holds a slot of the limiter. *)
Definition in_flight (g : goroutine) : bool :=
  match g with
  | Worker _ WGet | Worker _ (WRelease _) => true
  | _ => false
  end.

(** A worker between [mutex.Lock()] and [mutex.Unlock()]. *)
Definition in_critical (g : goroutine) : bool :=
  match g with
  | Worker _ (WStore _) | Worker _ (WUnlock _) => true
  | _ => false
  end.

Lemma count_app f p1 p2 : count f (p1 ++ p2) = count f p1 + count f p2.
Proof. induction p1 as [|g p1 IH]; simpl; [done | rewrite IH; lia]. Qed.

Lemma count_pos f p : 0 < count f p -> exists p1 g p2, p = p1 ++ g :: p2 /\ f g = true.
Proof.
  induction p as [|g p IH]; simpl; [lia |].
  destruct (f g) eqn:Hg.
  - intros _. by exists [], g, p.
  - intros H. destruct IH as (p1 & g' & p2 & -> & Hg'); [lia |].
    by exists (g :: p1), g', p2.
Qed.

Definition limiter_ok (s : state) : Prop :=
  counter s = count in_flight (pool s) /\ counter s <= limit.

Definition mutex_ok (s : state) : Prop :=
  count in_critical (pool s) = if mutex s then 1 else 0.

Lemma limiter_step s e s' : limiter_ok s -> trans url s e s' -> limiter_ok s'.
Proof.
  unfold limiter_ok. intros [Hc Hle] Ht.
  destruct Ht; simpl in *; rewrite ?count_app in *; simpl in *;
    split; try lia.
Qed.

Lemma mutex_step s e s' : mutex_ok s -> trans url s e s' -> mutex_ok s'.
Proof.
  unfold mutex_ok. intros Hc Ht.
  destruct Ht; simpl in *; rewrite ?count_app in *; simpl in *; lia.
Qed.

Lemma limiter_exec tr s : exec url init tr s -> limiter_ok s.
Proof.
  intros H. apply (exec_inv (fun _ s => limiter_ok s) init) with (tr := tr);
    [| | done].
  - split; simpl; [done | unfold limit; lia].
  - intros. by eapply limiter_step.
Qed.

Lemma mutex_exec tr s : exec url init tr s -> mutex_ok s.
Proof.
  intros H. apply (exec_inv (fun _ s => mutex_ok s) init) with (tr := tr);
    [done | | done].
  intros. by eapply mutex_step.
Qed.

(** *** The pages the crawl can reach *)

(** The part of the test of [crawlDomain] that does not depend on [visited]. *)
Definition passes (link : string) : bool :=
  negb (isImageLink link) && isSameDomain url link.

(** The seed if it passes the filters, and every link that passes them on a
    page already reached. *)
Inductive Reach : string -> Prop :=
| Reach_seed : passes url = true -> Reach url
| Reach_link u l :
    Reach u -> l ∈ result u -> passes l = true -> Reach l.

(** Where a link handed to the loop can come from. *)
Definition Src (l : string) : Prop :=
  l = url \/ exists u, Reach u /\ l ∈ result u.

Definition sound (s : state) : Prop :=
  (forall link, is_Some (visited s !! link) -> Reach link) /\
  (forall rest, sched s = SRange rest -> forall l, l ∈ rest -> Src l).

Lemma sound_step s e s' : wf s -> sound s -> trans url s e s' -> sound s'.
Proof.
  intros [Hv Hnd Hw Hsm Hd Hsd] [Hr Hs] Ht.
  destruct Ht; simpl in *; split; simpl; try done; try exact Hr;
    try (intros rest' [= <-]); try (by apply Hs).
  - intros l. rewrite lookup_insert_is_Some.
    intros [<- | [_ Hl]]; [| by apply Hr].
    assert (Hp : passes link = true).
    { unfold passes. by rewrite H0, H1. }
    destruct (Hs _ eq_refl link) as [-> | (u & Hu & Hin)]; [by left | |].
    + by apply Reach_seed.
    + by eapply Reach_link.
  - intros l Hl. apply (Hs _ eq_refl). by right.
  - intros l Hl. apply (Hs _ eq_refl). by right.
  - intros l ->%list_elem_of_singleton. by left.
  - intros l Hl. right. exists link.
    destruct (Hw link (WSend list)) as (Hin & Hok & _);
      [apply elem_of_middle; by left |].
    simpl in Hok. subst list. split; [by apply Hr | done].
Qed.

Lemma sound_exec tr s : exec url init tr s -> sound s.
Proof.
  intros H.
  apply (exec_inv (fun tr s => exec url init tr s /\ sound s) init)
    with (tr := tr); [| | done].
  - split; [constructor |]. split; simpl.
    + intros link. rewrite lookup_empty. by intros [? ?].
    + done.
  - intros tr0 s0 e s1 Hex [_ Hso] Ht. split.
    + econstructor; [done | by apply step_trans].
    + eapply sound_step; [by eapply wf_exec | done | done].
Qed.

(** A link is covered when, if it passes the filters, it is marked in
    [visited] or still waits in the list the loop ranges over. *)
Definition covered (s : state) (l : string) : Prop :=
  passes l = true ->
  is_Some (visited s !! l) \/ exists rest, sched s = SRange rest /\ l ∈ rest.

Definition closed (s : state) : Prop :=
  (Seed ∈ pool s \/ covered s url) /\
  (forall link, is_Some (visited s !! link) ->
     link ∈ links_of (pool s) \/ forall l, l ∈ result link -> covered s l).

Lemma covered_step s e s' l :
  wf s -> trans url s e s' -> covered s l -> covered s' l.
Proof.
  intros [Hv _ _ _ _ _] Ht Hc Hp. specialize (Hc Hp).
  destruct Ht; simpl in *;
    try (destruct Hc as [? | (rest' & [=] & ?)]; by auto);
    try done.
  - destruct Hc as [? | (rest' & [= <-] & Hin)]; [by left |].
    by apply elem_of_nil in Hin.
  - destruct Hc as [? | (rest' & [= <-] & Hin)].
    + left. rewrite lookup_insert_is_Some. destruct (decide (link = l)); auto.
    + apply elem_of_cons in Hin as [-> | Hin].
      * left. by rewrite lookup_insert_eq.
      * right. eauto.
  - destruct Hc as [? | (rest' & [= <-] & Hin)]; [by left |].
    apply elem_of_cons in Hin as [-> | Hin]; [| right; eauto].
    unfold passes in Hp. apply andb_true_iff in Hp as [Hi Hd].
    apply negb_true_iff in Hi.
    destruct H as [Hseen | [? | ?]]; [| congruence | congruence].
    left. by destruct (v !! link).
Qed.

Lemma closed_step s e s' : wf s -> closed s -> trans url s e s' -> closed s'.
Proof.
  intros Hwf [Hroot Hcl] Ht. pose proof Hwf as [Hv Hnd Hw Hsm Hd Hsd]. split.
  - destruct Hroot as [Hseed | Hc]; [| right; by eapply covered_step].
    destruct Ht; simpl in *; auto;
      try (left; apply elem_of_middle; apply elem_of_middle in Hseed;
           destruct Hseed; by auto).
    + left. apply elem_of_app. by left.
    + right. intros _. right. exists [url]. split; [done | by left].
    + left. apply elem_of_middle in Hseed as [? | ?]; done.
  - intros l Hl.
    assert (Hkeep : is_Some (visited s !! l) -> pool s' = pool s \/
              (forall x, x ∈ links_of (pool s) -> x ∈ links_of (pool s')) ->
              l ∈ links_of (pool s') \/
              (forall x, x ∈ result l -> covered s' x)).
    { intros Hs Hp. destruct (Hcl _ Hs) as [Hin | Hres].
      - left. destruct Hp as [-> | Hp]; auto.
      - right. intros x Hx. eapply covered_step; eauto. }
    destruct Ht; simpl in *; try (apply Hkeep; by auto);
      try (apply Hkeep; [done |]; right; intros x;
           by rewrite !links_of_middle).
    + apply lookup_insert_is_Some in Hl.
      destruct (decide (link = l)) as [<- | Hne].
      * left. rewrite links_of_app. apply elem_of_app. right. by left.
      * destruct Hl as [? | [_ Hl]]; [done |]. apply Hkeep; [done |].
        right. intros x Hx. rewrite links_of_app. apply elem_of_app. by left.
    + destruct Hsd as (_ & Hempty & _); [apply elem_of_middle; by left |].
      simpl in Hempty. subst v. rewrite lookup_empty in Hl. by destruct Hl.
    + destruct (decide (l = link)) as [-> | Hne].
      * right. intros x Hx _. right. exists list. split; [done |].
        destruct (Hw link (WSend list)) as (_ & Hok & _);
          [apply elem_of_middle; by left |].
        simpl in Hok. by subst list.
      * destruct (Hcl _ Hl) as [Hin | Hres].
        -- left. rewrite links_of_middle in Hin. rewrite links_of_app.
           rewrite elem_of_app, elem_of_cons in Hin. apply elem_of_app.
           destruct Hin as [? | [? | ?]]; by auto.
        -- right. intros x Hx. eapply covered_step; eauto. constructor.
Qed.

Lemma closed_exec tr s : exec url init tr s -> closed s.
Proof.
  intros H.
  apply (exec_inv (fun tr s => exec url init tr s /\ closed s) init)
    with (tr := tr); [| | done].
  - split; [constructor |]. split; simpl.
    + left. by left.
    + intros link. rewrite lookup_empty. by intros [? ?].
  - intros tr0 s0 e s1 Hex [_ Hso] Ht. split.
    + econstructor; [done | by apply step_trans].
    + eapply closed_step; [by eapply wf_exec | done | done].
Qed.

(** *** The life of one worker, as the trace shows it *)

(** The worker an event belongs to, if any. *)
Definition subject (e : event) : option string :=
  match e with
  | ECond _ | ESkip _ | EPost => None
  | EDeliver from _ => from
  | ESpawn l | EAcquire l | EGet l | ERelease l | EPrint l _ | ENoErr l
  | ELock l | EStore l _ | EUnlock l => Some l
  end.

Definition about (link : string) (e : event) : bool :=
  bool_decide (subject e = Some link).

(** The events of the worker of [link], from its start to its end. *)
Definition lifecycle (link : string) : list event :=
  [ ESpawn link; EAcquire link; EGet link; ERelease link;
    match snd (Get link) with
    | Some err => EPrint link err
    | None => ENoErr link
    end;
    ELock link; EStore link (result link); EUnlock link;
    EDeliver (Some link) (result link) ].

Definition pc_stage (pc : worker_pc) : nat :=
  match pc with
  | WAcquire => 1 | WGet => 2 | WRelease _ => 3 | WErr _ => 4
  | WLock _ => 5 | WStore _ => 6 | WUnlock _ => 7 | WSend _ => 8
  end.

Fixpoint pc_at (link : string) (p : list goroutine) : option worker_pc :=
  match p with
  | [] => None
  | Seed :: p' => pc_at link p'
  | Worker l pc :: p' => if decide (l = link) then Some pc else pc_at link p'
  end.

(** How many events of its life the worker of [link] has behind it. *)
Definition stage_of (v : gmap string bool) (p : list goroutine)
    (link : string) : nat :=
  match v !! link with
  | None => 0
  | Some _ => match pc_at link p with Some pc => pc_stage pc | None => 9 end
  end.

Definition stage (s : state) (link : string) : nat :=
  stage_of (visited s) (pool s) link.

Lemma pc_at_app link p1 p2 :
  pc_at link (p1 ++ p2) =
  match pc_at link p1 with Some pc => Some pc | None => pc_at link p2 end.
Proof.
  induction p1 as [|[|l pc] p1 IH]; simpl; [done | done |].
  by case_decide.
Qed.

Lemma pc_at_None link p : link ∉ links_of p -> pc_at link p = None.
Proof.
  induction p as [|[|l pc] p IH]; simpl; [done | done |].
  rewrite not_elem_of_cons. intros [Hne Hin]. case_decide; [done | auto].
Qed.

Lemma pc_at_Some link p pc : pc_at link p = Some pc -> Worker link pc ∈ p.
Proof.
  induction p as [|[|l pc'] p IH]; simpl; [done | |].
  - intros H. right. auto.
  - case_decide.
    + intros [= ->]. subst. by left.
    + intros H'. right. auto.
Qed.

Lemma nodup_middle p1 link pc p2 :
  NoDup (links_of (p1 ++ Worker link pc :: p2)) ->
  (link ∉ links_of p1) /\ (link ∉ links_of p2).
Proof.
  rewrite links_of_middle. intros Hnd.
  apply NoDup_app in Hnd as (H1 & H2 & H3). apply NoDup_cons in H3 as [H3 H4].
  split; [| done]. intros Hin. apply (H2 _ Hin). by left.
Qed.

Lemma pc_at_here p1 link pc p2 :
  link ∉ links_of p1 -> pc_at link (p1 ++ Worker link pc :: p2) = Some pc.
Proof.
  intros H. rewrite pc_at_app, (pc_at_None _ _ H). simpl. by case_decide.
Qed.

Lemma pc_at_gone p1 link p2 :
  link ∉ links_of p1 -> link ∉ links_of p2 -> pc_at link (p1 ++ p2) = None.
Proof. intros H1 H2. by rewrite pc_at_app, (pc_at_None _ _ H1), pc_at_None. Qed.

Lemma pc_at_other p1 link0 pc p2 link :
  link <> link0 ->
  pc_at link (p1 ++ Worker link0 pc :: p2) = pc_at link (p1 ++ p2).
Proof. intros H. rewrite !pc_at_app. simpl. by case_decide. Qed.

Lemma filter_snoc (f : event -> bool) tr e :
  List.filter f (tr ++ [e]) = List.filter f tr ++ (if f e then [e] else []).
Proof. by rewrite List.filter_app. Qed.

Definition life_ok (tr : list event) (s : state) : Prop :=
  forall link, List.filter (about link) tr = take (stage s link) (lifecycle link).

(** An event of [link0] that is the next of its life moves its stage on by
    one and leaves the other workers where they are. *)
Lemma life_advance tr e link0 (k k' : string -> nat) :
  subject e = Some link0 ->
  lifecycle link0 !! k link0 = Some e ->
  k' link0 = S (k link0) ->
  (forall link, link <> link0 -> k' link = k link) ->
  (forall link, List.filter (about link) tr = take (k link) (lifecycle link)) ->
  forall link, List.filter (about link) (tr ++ [e]) = take (k' link) (lifecycle link).
Proof.
  intros Hsub Hnext Hk' Hother Hlife link. rewrite filter_snoc, Hlife.
  unfold about. rewrite Hsub. case_bool_decide as Heq.
  - injection Heq as ->. rewrite Hk'. by erewrite take_S_r.
  - rewrite Hother by congruence. by rewrite app_nil_r.
Qed.

Lemma life_same tr e (k k' : string -> nat) :
  subject e = None ->
  (forall link, k' link = k link) ->
  (forall link, List.filter (about link) tr = take (k link) (lifecycle link)) ->
  forall link, List.filter (about link) (tr ++ [e]) = take (k' link) (lifecycle link).
Proof.
  intros Hsub Hk' Hlife link. rewrite filter_snoc, Hlife, Hk'.
  unfold about. rewrite Hsub. rewrite bool_decide_eq_false_2 by done.
  by rewrite app_nil_r.
Qed.

Lemma life_step tr s e s' :
  wf s -> life_ok tr s -> trans url s e s' -> life_ok (tr ++ [e]) s'.
Proof.
  intros [Hv Hnd Hw Hsm Hd Hsd] Hlife Ht. unfold life_ok, stage in *.
  assert (Hworker : forall p1 link0 pc pc' p2,
    pool s = p1 ++ Worker link0 pc :: p2 ->
    visited s' = visited s -> pool s' = p1 ++ Worker link0 pc' :: p2 ->
    subject e = Some link0 -> pc_stage pc' = S (pc_stage pc) ->
    (pc_ok link0 pc -> lifecycle link0 !! pc_stage pc = Some e) ->
    forall link, List.filter (about link) (tr ++ [e]) =
                 take (stage_of (visited s') (pool s') link) (lifecycle link)).
  { intros p1 link0 pc pc' p2 Hp Hv' Hp' Hsub Hst Hnext.
    rewrite Hp in Hnd, Hw. destruct (nodup_middle _ _ _ _ Hnd) as [Hn1 Hn2].
    destruct (Hw link0 pc) as ([b Hb] & Hok & _); [apply elem_of_middle; by left |].
    eapply life_advance; [done | | | | exact Hlife].
    - unfold stage_of. rewrite Hb, Hp, pc_at_here by done. auto.
    - unfold stage_of. rewrite Hv', Hb, Hp, Hp', !pc_at_here by done. done.
    - intros link Hne. unfold stage_of. rewrite Hv', Hp, Hp'.
      by rewrite !(pc_at_other _ link0) by done. }
  destruct Ht; simpl in *;
    try (eapply life_same; [done | done | exact Hlife]);
    try (eapply Hworker; simpl; try done; by intros ->).
  - (* spawn *)
    pose proof (seen_false_visited _ _ Hv H) as Hnone.
    assert (Hnot : link ∉ links_of p).
    { intros [pc Hin]%elem_of_links_of.
      destruct (Hw _ _ Hin) as ([b Hb] & _). congruence. }
    eapply life_advance; [done | | | | exact Hlife]; simpl.
    + unfold stage_of. by rewrite Hnone.
    + unfold stage_of. rewrite lookup_insert_eq, Hnone.
      by rewrite pc_at_app, (pc_at_None _ _ Hnot); simpl; case_decide.
    + intros l Hne. unfold stage_of. rewrite lookup_insert_ne by done.
      rewrite pc_at_app. simpl. case_decide; [done |].
      by destruct (pc_at l p).
  - (* the seed is delivered *)
    eapply life_same; [done | | exact Hlife]. intros l. simpl.
    unfold stage_of. by rewrite !pc_at_app.
  - (* a worker is delivered *)
    destruct (nodup_middle _ _ _ _ Hnd) as [Hn1 Hn2].
    destruct (Hw link (WSend list)) as ([b Hb] & Hok & _);
      [apply elem_of_middle; by left |].
    simpl in Hok. subst list.
    eapply life_advance; [done | | | | exact Hlife]; simpl.
    + unfold stage_of. by rewrite Hb, pc_at_here.
    + unfold stage_of. by rewrite Hb, pc_at_here, pc_at_gone.
    + intros l Hne. unfold stage_of. by rewrite pc_at_other.
  - (* print *)
    eapply Hworker; simpl; try done. intros Hok.
    unfold lifecycle; simpl. by rewrite <- Hok.
  - (* no error *)
    eapply Hworker; simpl; try done. intros Hok.
    unfold lifecycle; simpl. by rewrite <- Hok.
Qed.

Lemma life_exec tr s : exec url init tr s -> life_ok tr s.
Proof.
  intros H.
  apply (exec_inv (fun tr s => exec url init tr s /\ life_ok tr s) init)
    with (tr := tr); [| | done].
  - split; [constructor |]. intros link. unfold stage, stage_of; simpl.
    by rewrite lookup_empty.
  - intros tr0 s0 e s1 Hex [_ Hl] Ht. split.
    + econstructor; [done | by apply step_trans].
    + eapply life_step; [by eapply wf_exec | done | done].
Qed.

(** *** Counting events in a trace *)

Definition times (f : event -> bool) (tr : list event) : nat :=
  length (List.filter f tr).

Definition is_spawn (link : string) (e : event) : bool :=
  match e with ESpawn l => bool_decide (l = link) | _ => false end.

Definition is_acquire (link : string) (e : event) : bool :=
  match e with EAcquire l => bool_decide (l = link) | _ => false end.

Definition is_get (link : string) (e : event) : bool :=
  match e with EGet l => bool_decide (l = link) | _ => false end.

Definition is_release (link : string) (e : event) : bool :=
  match e with ERelease l => bool_decide (l = link) | _ => false end.

Definition is_print (link : string) (e : event) : bool :=
  match e with EPrint l _ => bool_decide (l = link) | _ => false end.

Definition is_store (link : string) (e : event) : bool :=
  match e with EStore l _ => bool_decide (l = link) | _ => false end.

Definition is_delivery (link : string) (e : event) : bool :=
  match e with EDeliver (Some l) _ => bool_decide (l = link) | _ => false end.

Definition any_spawn (e : event) : bool :=
  match e with ESpawn _ => true | _ => false end.

Definition any_post (e : event) : bool :=
  match e with EPost => true | _ => false end.

Definition any_deliver (e : event) : bool :=
  match e with EDeliver _ _ => true | _ => false end.

Lemma times_snoc f tr e : times f (tr ++ [e]) = times f tr + (if f e then 1 else 0).
Proof.
  unfold times. rewrite filter_snoc, length_app. by destruct (f e).
Qed.

Lemma filter_through (f g : event -> bool) tr :
  (forall e, f e = true -> g e = true) ->
  List.filter f tr = List.filter f (List.filter g tr).
Proof.
  intros Hfg. induction tr as [|e tr IH]; simpl; [done |].
  destruct (f e) eqn:Hf.
  - rewrite (Hfg _ Hf). simpl. by rewrite Hf, IH.
  - destruct (g e); simpl; [by rewrite Hf |]; done.
Qed.

(** The events of one kind that belong to [link] are those of the part of
    its life the worker has behind it. *)
Lemma times_stage f link tr s :
  exec url init tr s ->
  (forall e, f e = true -> about link e = true) ->
  times f tr = times f (take (stage s link) (lifecycle link)).
Proof.
  intros Hex Hf. unfold times.
  by rewrite (filter_through f (about link)), (life_exec _ _ Hex link).
Qed.

Lemma stage_le s link : stage s link <= 9.
Proof.
  unfold stage, stage_of. destruct (visited s !! link); [| lia].
  destruct (pc_at link (pool s)) as [[]|]; simpl; lia.
Qed.

Lemma stage_unvisited s link : visited s !! link = None -> stage s link = 0.
Proof. unfold stage, stage_of. by intros ->. Qed.

Lemma stage_gone s link :
  is_Some (visited s !! link) -> link ∉ links_of (pool s) -> stage s link = 9.
Proof.
  unfold stage, stage_of. intros [b ->] Hn. by rewrite pc_at_None.
Qed.

Lemma stage_stored tr s link :
  exec url init tr s -> is_Some (sitemap s !! link) -> 7 <= stage s link.
Proof.
  intros Hex [l Hl]. destruct (wf_exec _ _ Hex) as [Hv Hnd Hw Hsm Hd Hsd].
  destruct (Hsm _ _ Hl) as [[b Hb] _]. unfold stage, stage_of. rewrite Hb.
  destruct (pc_at link (pool s)) as [pc|] eqn:Hpc; [| lia].
  apply pc_at_Some in Hpc. destruct (Hw _ _ Hpc) as (_ & _ & Hm).
  rewrite Hl in Hm. destruct pc; simpl in *; try done; lia.
Qed.

Local Ltac about_link :=
  let e := fresh "e" in
  intros e; unfold about; destruct e as [| [?|] ? | | | | | | | | | | |];
  simpl; try done; repeat case_bool_decide; try done; congruence.

Local Ltac count_life Hex f link s :=
  rewrite (times_stage f link _ _ Hex) by about_link;
  let H := fresh in
  let j := fresh "j" in
  pose proof (stage_le s link) as H; revert H;
  generalize (stage s link); intros j H;
  unfold times, lifecycle;
  do 10 (destruct j as [|j]; [simpl; destruct (snd (Get link)); simpl;
         rewrite ?bool_decide_eq_true_2 by done; done |]);
  lia.

Lemma times_spawn tr s link :
  exec url init tr s ->
  times (is_spawn link) tr = if 0 <? stage s link then 1 else 0.
Proof. intros Hex. count_life Hex (is_spawn link) link s. Qed.

Lemma times_acquire tr s link :
  exec url init tr s ->
  times (is_acquire link) tr = if 1 <? stage s link then 1 else 0.
Proof. intros Hex. count_life Hex (is_acquire link) link s. Qed.

Lemma times_get tr s link :
  exec url init tr s ->
  times (is_get link) tr = if 2 <? stage s link then 1 else 0.
Proof. intros Hex. count_life Hex (is_get link) link s. Qed.

Lemma times_release tr s link :
  exec url init tr s ->
  times (is_release link) tr = if 3 <? stage s link then 1 else 0.
Proof. intros Hex. count_life Hex (is_release link) link s. Qed.

Lemma times_print tr s link :
  exec url init tr s ->
  times (is_print link) tr =
  match snd (Get link) with
  | Some _ => if 4 <? stage s link then 1 else 0
  | None => 0
  end.
Proof. intros Hex. count_life Hex (is_print link) link s. Qed.

Lemma times_store tr s link :
  exec url init tr s ->
  times (is_store link) tr = if 6 <? stage s link then 1 else 0.
Proof. intros Hex. count_life Hex (is_store link) link s. Qed.

Lemma times_delivery tr s link :
  exec url init tr s ->
  times (is_delivery link) tr = if 8 <? stage s link then 1 else 0.
Proof. intros Hex. count_life Hex (is_delivery link) link s. Qed.

(** *** Spawns, deliveries and decrements add up *)

Definition ranging (pc : sched_pc) : nat :=
  match pc with SRange _ => 1 | _ => 0 end.

Definition tally (tr : list event) (s : state) : Prop :=
  length (pool s) + times any_deliver tr = 1 + times any_spawn tr /\
  times any_post tr + ranging (sched s) = times any_deliver tr.

Lemma tally_step tr s e s' :
  tally tr s -> trans url s e s' -> tally (tr ++ [e]) s'.
Proof.
  unfold tally. intros [H1 H2] Ht. rewrite !times_snoc.
  destruct Ht; simpl in *; rewrite ?length_app in *; simpl in *; lia.
Qed.

Lemma tally_exec tr s : exec url init tr s -> tally tr s.
Proof.
  intros H. apply (exec_inv tally init) with (tr := tr); [done | | done].
  intros. by eapply tally_step.
Qed.

(** What [fmt.Println(err)] has printed is what the trace shows. *)
Definition printed (e : event) : option string :=
  match e with EPrint _ err => Some err | _ => None end.

Lemma stdout_exec tr s : exec url init tr s -> stdout s = omap printed tr.
Proof.
  intros H.
  apply (exec_inv (fun tr s => stdout s = omap printed tr) init) with (tr := tr);
    [done | | done].
  intros tr0 s0 e s1 _ Hout Ht. rewrite omap_app.
  destruct Ht; simpl in *; rewrite Hout, ?app_nil_r; done.
Qed.

(** *** The schedule [run] is one of the executions *)

Lemma exec_cons s e s1 tr s2 :
  step url s e s1 -> exec url s1 tr s2 -> exec url s (e :: tr) s2.
Proof.
  intros Hs H. induction H as [|s1 tr s2 e' s3 H IH Hs'].
  - apply (exec_snoc url s [] s); [constructor | done].
  - apply (exec_snoc url s (e :: tr) s2); [by apply IH | done].
Qed.

Lemma first_go_step i k s e s' :
  first_go url i k s = Some (e, s') -> step url s e s'.
Proof.
  revert i; induction k as [|k IH]; intros i; [done |].
  change (first_go url i (S k) s)
    with (match fire url (Go i) s with
          | Some r => Some r
          | None => first_go url (S i) k s
          end).
  destruct (fire url (Go i) s) as [r|] eqn:Hf.
  - intros [= ->]. by exists (Go i).
  - apply IH.
Qed.

Lemma next_step s e s' : next url s = Some (e, s') -> step url s e s'.
Proof.
  unfold next. destruct (fire url Main s) as [r|] eqn:Hf.
  - intros [= ->]. by exists Main.
  - apply first_go_step.
Qed.

Lemma run_exec fuel s : exec url s (fst (run url fuel s)) (snd (run url fuel s)).
Proof.
  revert s; induction fuel as [|fuel IH]; intros s; simpl; [constructor |].
  destruct (next url s) as [[e s']|] eqn:Hn; [| constructor].
  specialize (IH s'). destruct (run url fuel s') as [tr s'']. simpl in *.
  eapply exec_cons; [by apply next_step | done].
Qed.

(** *** One worker per link, one entry per worker *)

Definition works_on (link : string) (g : goroutine) : bool :=
  match g with
  | Seed => false
  | Worker l _ => bool_decide (l = link)
  end.

Lemma count_works_on_notin link p :
  link ∉ links_of p -> count (works_on link) p = 0.
Proof.
  induction p as [|[|l pc] p IH]; simpl; [done | done |].
  rewrite not_elem_of_cons. intros [Hne Hin].
  rewrite bool_decide_eq_false_2 by done. auto.
Qed.

Lemma count_works_on_nodup link p :
  NoDup (links_of p) -> count (works_on link) p <= 1.
Proof.
  induction p as [|[|l pc] p IH]; simpl; [lia | done |].
  rewrite NoDup_cons. intros [Hl Hnd]. case_bool_decide.
  - subst l. rewrite count_works_on_notin by done. lia.
  - auto.
Qed.

Lemma pc_at_elem link pc p :
  NoDup (links_of p) -> Worker link pc ∈ p -> pc_at link p = Some pc.
Proof.
  intros Hnd Hin. apply list_elem_of_split in Hin as (p1 & p2 & ->).
  apply pc_at_here. by apply nodup_middle in Hnd as [? _].
Qed.

Lemma stage_worker tr s link pc :
  exec url init tr s -> Worker link pc ∈ pool s -> stage s link = pc_stage pc.
Proof.
  intros Hex Hin. destruct (wf_exec _ _ Hex) as [Hv Hnd Hw Hsm Hd Hsd].
  destruct (Hw _ _ Hin) as ([b Hb] & _). unfold stage, stage_of.
  by rewrite Hb, (pc_at_elem _ _ _ Hnd Hin).
Qed.

(** An entry of [sitemap], once written, stays as it is. *)
Lemma sitemap_stable tr s e s' link l :
  exec url init tr s -> step url s e s' ->
  sitemap s !! link = Some l -> sitemap s' !! link = Some l.
Proof.
  intros Hex Hs Hl. destruct (wf_exec _ _ Hex) as [Hv Hnd Hw Hsm Hd Hsd].
  apply step_trans in Hs. destruct Hs; simpl in *; try done.
  destruct (Hw link0 (WStore list)) as (_ & _ & Hnone);
    [apply elem_of_middle; by left |].
  simpl in Hnone. rewrite lookup_insert_ne; [done |]. intros ->. congruence.
Qed.

(** When the worker of [link] has ended, the trace holds its whole life. *)
Lemma life_whole tr s link e :
  exec url init tr s -> stage s link = 9 -> e ∈ lifecycle link -> e ∈ tr.
Proof.
  intros Hex Hst He. pose proof (life_exec _ _ Hex link) as Hl.
  rewrite Hst in Hl. rewrite firstn_all2 in Hl by (simpl; lia).
  rewrite <- Hl in He. apply list_elem_of_In, List.filter_In in He as [He _].
  by apply list_elem_of_In.
Qed.

End Steps.

(* --------------------------------------------------------------------- *)
(** ** Crawls of a finite link graph *)
(* --------------------------------------------------------------------- *)

Fixpoint total {A : Type} (f : A -> nat) (l : list A) : nat :=
  match l with
  | [] => 0
  | x :: l' => f x + total f l'
  end.

Lemma total_app {A : Type} (f : A -> nat) (l1 l2 : list A) :
  total f (l1 ++ l2) = total f l1 + total f l2.
Proof. induction l1 as [|x l1 IH]; simpl; [done | rewrite IH; lia]. Qed.

Lemma total_one {A : Type} (l : list A) : total (fun _ => 1) l = length l.
Proof. induction l as [|x l IH]; simpl; [done | by rewrite IH]. Qed.

Lemma wrap_id (z : Z) : (- 2 ^ 63 <= z <= maxInt)%Z -> wrap z = z.
Proof. unfold wrap, maxInt. intros H. rewrite Z.mod_small; lia. Qed.

(** The links of [L] not yet marked in [v]. *)
Definition unvisited (v : gmap string bool) (L : list string) : list string :=
  filter (fun u => v !! u = None) L.

Lemma unvisited_insert_notin (v : gmap string bool) link L :
  link ∉ L -> unvisited (<[link := true]> v) L = unvisited v L.
Proof.
  unfold unvisited. induction L as [|x L IH]; [done |].
  rewrite not_elem_of_cons. intros [Hne Hin].
  rewrite !filter_cons, lookup_insert_ne by done. by rewrite IH.
Qed.

Lemma unvisited_insert (f : string -> nat) (v : gmap string bool) link L :
  NoDup L -> link ∈ L -> v !! link = None ->
  total f (unvisited v L) = f link + total f (unvisited (<[link := true]> v) L).
Proof.
  intros Hnd Hin Hnone.
  induction Hnd as [|x L Hx Hnd IH]; [by apply elem_of_nil in Hin |].
  unfold unvisited in *. rewrite !filter_cons.
  apply elem_of_cons in Hin as [<- | Hin].
  - rewrite decide_True by done.
    rewrite decide_False by (by rewrite lookup_insert_eq).
    simpl. f_equal. f_equal. symmetry. by apply unvisited_insert_notin.
  - assert (x <> link) by (by intros ->).
    rewrite lookup_insert_ne by done. specialize (IH Hin).
    case_decide; simpl; lia.
Qed.

(** The remaining steps of a goroutine, its delivery and the handling of
    the list it delivers included. *)
Definition weight `{Fetcher} (g : goroutine) : nat :=
  match g with
  | Seed => 4
  | Worker link pc =>
      match pc with
      | WAcquire => length (result link) + 10
      | WGet => length (result link) + 9
      | WRelease r => length (getLinks_result r) + 8
      | WErr r => length (getLinks_result r) + 7
      | WLock l => length l + 6
      | WStore l => length l + 5
      | WUnlock l => length l + 4
      | WSend l => length l + 3
      end
  end.

Definition sched_weight (pc : sched_pc) : nat :=
  match pc with
  | SCond => 1
  | SRecv => 0
  | SRange rest => length rest + 2
  | SReturn => 0
  end.

Section Finite.
Context {fetcher : Fetcher}.
Variable url : string.

(** The link graph is finite: all pages the crawl can reach lie in [U]. *)
Variable U : list string.
Hypothesis U_reach : forall u, Reach url u -> u ∈ U.
Hypothesis U_fits : (Z.of_nat (length U) + 2 <= maxInt)%Z.

Definition todo (s : state) : list string :=
  unvisited (visited s) (remove_dups U).

(** The number of steps the crawl has left. *)
Definition measure (s : state) : nat :=
  total (fun u => weight (Worker u WAcquire)) (todo s)
  + total weight (pool s) + sched_weight (sched s).

Definition counted (s : state) : Prop :=
  length (pool s) + length (todo s) <= length (remove_dups U) + 1 /\
  n s = Z.of_nat (length (pool s) + ranging (sched s)) /\
  (sched s = SRecv -> pool s <> []) /\
  (sched s = SReturn -> pool s = []).

Lemma remove_dups_length (L : list string) :
  length (remove_dups L) <= length L.
Proof.
  induction L as [|x L IH]; simpl; [done |].
  destruct (decide_rel _ x L); simpl; lia.
Qed.

Lemma spawn_todo (s : state) link rest :
  wf url s -> sound url s -> sched s = SRange (link :: rest) ->
  default false (visited s !! link) = false ->
  isImageLink link = false -> isSameDomain url link = true ->
  forall f, total f (unvisited (visited s) (remove_dups U)) =
            f link + total f (unvisited (<[link := true]> (visited s))
                                (remove_dups U)).
Proof.
  intros Hwf [Hr Hs] Hsched Hseen Himg Hdom f.
  apply unvisited_insert.
  - apply NoDup_remove_dups.
  - apply elem_of_remove_dups, U_reach.
    assert (Hp : passes url link = true) by (unfold passes; by rewrite Himg, Hdom).
    destruct (Hs _ Hsched link) as [-> | (u & Hu & Hin)]; [by left | |].
    + by apply Reach_seed.
    + by eapply Reach_link.
  - eapply seen_false_visited; [apply Hwf | done].
Qed.

Lemma counted_step s e s' :
  wf url s -> sound url s -> counted s -> trans url s e s' -> counted s'.
Proof.
  intros Hwf Hso (Hlen & Hn & Hrecv & Hret) Ht.
  pose proof (remove_dups_length U) as HU.
  unfold counted, todo in *.
  destruct Ht; simpl in *;
    try (pose proof (spawn_todo _ link rest Hwf Hso eq_refl H H0 H1
                       (fun _ => 1)) as Htodo;
         simpl in Htodo; rewrite !total_one in Htodo);
    rewrite ?length_app in *; simpl in *;
    (split; [| split; [| split]]);
    try lia; try done;
    try (rewrite wrap_id; unfold maxInt in *; lia);
    try (intros _; by destruct p1);
    try (intros Hpc; specialize (Hret Hpc); by destruct p1).
  - intros _ ->. simpl in *. lia.
  - intros _. destruct p; [done |]. simpl in *. lia.
Qed.

Lemma measure_step s e s' :
  wf url s -> sound url s -> trans url s e s' -> measure s = S (measure s').
Proof.
  intros Hwf Hso Ht. unfold measure, todo.
  destruct Ht; simpl in *; rewrite ?total_app; simpl; try lia.
  - rewrite (spawn_todo _ link rest Hwf Hso eq_refl H H0 H1). simpl. lia.
  - unfold result. lia.
Qed.

Lemma counted_exec tr s : exec url init tr s -> counted s.
Proof.
  intros H.
  apply (exec_inv url (fun tr s => exec url init tr s /\ counted s) init)
    with (tr := tr); [| | done].
  - split; [constructor |]. unfold counted, todo; simpl.
    unfold unvisited. repeat split; try done. simpl.
    rewrite Nat.add_1_r. apply le_n_S, length_filter.
  - intros tr0 s0 e s1 Hex [_ Hc] Ht. split.
    + econstructor; [done | by apply step_trans].
    + eapply counted_step; [by eapply wf_exec | by eapply sound_exec | done | done].
Qed.

(** Every step uses up one unit of the measure. *)
Lemma measure_exec tr s :
  exec url init tr s -> length tr + measure s = measure init.
Proof.
  intros H.
  apply (exec_inv url (fun tr s => exec url init tr s /\
                          length tr + measure s = measure init) init)
    with (tr := tr); [| | done].
  - split; [constructor | done].
  - intros tr0 s0 e s1 Hex [_ Hm] Ht. split.
    + econstructor; [done | by apply step_trans].
    + rewrite length_app. simpl.
      rewrite (measure_step s0 e s1) in Hm;
        [lia | by eapply wf_exec | by eapply sound_exec | done].
Qed.

(** No deadlock: as long as [crawlDomain] has not returned, some thread
    can move. *)
Lemma progress tr s :
  exec url init tr s -> sched s <> SReturn -> exists e s', step url s e s'.
Proof.
  intros Hex Hsched.
  destruct (counted_exec _ _ Hex) as (_ & _ & Hrecv & _).
  destruct (limiter_exec _ _ _ Hex) as [Hc Hle].
  pose proof (mutex_exec _ _ _ Hex) as Hm. unfold mutex_ok in Hm.
  cut (exists e s', trans url s e s').
  { intros (e & s' & Ht). exists e, s'. by apply step_trans. }
  destruct s as [v m k c mu pc p out]; simpl in *.
  destruct pc as [| |[|link rest]|]; [| | | | done].
  - destruct (decide (0 < k)%Z).
    + eexists _, _. by apply T_cond_true.
    + eexists _, _. apply T_cond_false. lia.
  - (* the loop waits at its receive *)
    destruct (decide (0 < count in_flight p)) as [Hfl | Hfl].
    { destruct (count_pos _ _ Hfl) as (p1 & g & p2 & -> & Hg).
      destruct g as [|link [| |r| | | | |]]; try done.
      - eexists _, _. apply T_get.
      - rewrite count_app in Hc; simpl in Hc.
        destruct c; [lia |]. eexists _, _. apply T_release. }
    destruct (decide (0 < count in_critical p)) as [Hcr | Hcr].
    { destruct (count_pos _ _ Hcr) as (p1 & g & p2 & -> & Hg).
      destruct mu; [| lia].
      destruct g as [|link [| | | | |l|l|]]; try done.
      - eexists _, _. apply T_store.
      - eexists _, _. apply T_unlock. }
    destruct p as [|g p]; [by destruct Hrecv |].
    assert (c = 0) as -> by lia.
    destruct mu; [lia |]. simpl in *.
    destruct g as [|link [| |r|[links [err|]]|l|l|l|l]]; simpl in *; try lia.
    + eexists _, _. apply (T_seed url v m k 0 false []).
    + eexists _, _. apply (T_acquire url v m k 0 false SRecv []).
      unfold limit. lia.
    + eexists _, _. apply (T_print url v m k 0 false SRecv []).
    + eexists _, _. apply (T_noerr url v m k 0 false SRecv []).
    + eexists _, _. apply (T_lock url v m k 0 SRecv []).
    + eexists _, _. apply (T_send url v m k 0 false []).
  - eexists _, _. apply T_post.
  - destruct (default false (v !! link)) eqn:Hv;
      [eexists _, _; apply T_skip; by left |].
    destruct (isImageLink link) eqn:Hi;
      [eexists _, _; apply T_skip; right; by left |].
    destruct (isSameDomain url link) eqn:Hd;
      [| eexists _, _; apply T_skip; right; by right].
    eexists _, _. by apply T_spawn.
Qed.

Lemma exec_app s0 tr1 s1 tr2 s2 :
  exec url s0 tr1 s1 -> exec url s1 tr2 s2 -> exec url s0 (tr1 ++ tr2) s2.
Proof.
  intros H1 H2. induction H2 as [|s1 tr2 s2 e s3 H2 IH Hs].
  - by rewrite app_nil_r.
  - rewrite app_assoc. econstructor; [by apply IH | done].
Qed.

(** Every crawl can be run to its end. *)
Lemma completes tr s :
  exec url init tr s ->
  exists tr' s', exec url init (tr ++ tr') s' /\ sched s' = SReturn.
Proof.
  remember (measure s) as k eqn:Hk. revert tr s Hk.
  induction k as [k IH] using lt_wf_ind. intros tr s Hk Hex.
  assert (Hdec : sched s = SReturn \/ sched s <> SReturn)
    by (destruct (sched s); auto).
  destruct Hdec as [Hret | Hgo].
  - exists [], s. by rewrite app_nil_r.
  - destruct (progress _ _ Hex Hgo) as (e & s1 & Hs).
    assert (Hex1 : exec url init (tr ++ [e]) s1) by (econstructor; eauto).
    pose proof (measure_exec _ _ Hex) as M0.
    pose proof (measure_exec _ _ Hex1) as M1. rewrite length_app in M1.
    simpl in M1.
    destruct (IH (measure s1) ltac:(lia) _ _ eq_refl Hex1) as (tr' & s' & H' & Hr).
    exists (e :: tr'), s'. split; [| done].
    by rewrite <- app_assoc in H'.
Qed.

(** When [crawlDomain] returns, no goroutine is left, every slot of the
    limiter is free and the mutex is unlocked. *)
Lemma complete_quiet tr s :
  complete url tr s ->
  pool s = [] /\ n s = 0%Z /\ counter s = 0 /\ mutex s = false.
Proof.
  intros [Hex Hret].
  destruct (counted_exec _ _ Hex) as (_ & Hn & _ & Hp).
  destruct (limiter_exec _ _ _ Hex) as [Hc _].
  pose proof (mutex_exec _ _ _ Hex) as Hm. unfold mutex_ok in Hm.
  rewrite (Hp Hret) in *. rewrite Hret in Hn. simpl in *.
  repeat split; try done. by destruct (mutex s).
Qed.

(** *** What a complete crawl has built *)

Lemma complete_visited tr s u :
  complete url tr s -> is_Some (visited s !! u) <-> Reach url u.
Proof.
  intros Hc. pose proof Hc as [Hex Hret].
  destruct (complete_quiet _ _ Hc) as (Hp & _).
  destruct (sound_exec _ _ _ Hex) as [Hsound _].
  destruct (closed_exec _ _ _ Hex) as [Hroot Hcl].
  split; [apply Hsound |].
  assert (Hcov : forall l, covered url s l -> passes url l = true ->
                           is_Some (visited s !! l)).
  { intros l Hl Hpass. destruct (Hl Hpass) as [? | (rest & Hr & _)]; [done |].
    congruence. }
  induction 1 as [Hpass | u l Hu IH Hin Hpass].
  - destruct Hroot as [Hseed | Hc']; [| apply Hcov; done].
    rewrite Hp in Hseed. by apply elem_of_nil in Hseed.
  - destruct (Hcl _ IH) as [Hin' | Hres]; [| apply Hcov; [by apply Hres | done]].
    rewrite Hp in Hin'. by apply elem_of_nil in Hin'.
Qed.

Lemma complete_sitemap tr s u l :
  complete url tr s ->
  sitemap s !! u = Some l <-> Reach url u /\ l = result u.
Proof.
  intros Hc. pose proof Hc as [Hex Hret].
  destruct (complete_quiet _ _ Hc) as (Hp & _).
  destruct (wf_exec _ _ _ Hex) as [Hv Hnd Hw Hsm Hd Hsd]. split.
  - intros Hl. destruct (Hsm _ _ Hl) as [Hs ->].
    split; [| done]. by apply (complete_visited tr s).
  - intros [Hu ->]. apply (complete_visited tr s) in Hu; [| done].
    destruct (Hd _ Hu) as [Hin | [x Hx]].
    + rewrite Hp in Hin. by apply elem_of_nil in Hin.
    + by destruct (Hsm _ _ Hx) as [_ <-].
Qed.

Lemma complete_dom tr s :
  complete url tr s -> dom (sitemap s) = dom (visited s).
Proof.
  intros Hc. apply set_eq. intros u. rewrite !elem_of_dom.
  rewrite (complete_visited tr s u Hc). split.
  - intros [l Hl]. by apply (complete_sitemap tr s u l Hc) in Hl as [? _].
  - intros Hu. exists (result u). by apply (complete_sitemap tr s u _ Hc).
Qed.

Lemma complete_stage tr s u :
  complete url tr s -> is_Some (visited s !! u) -> stage s u = 9.
Proof.
  intros Hc Hu. destruct (complete_quiet _ _ Hc) as (Hp & _).
  apply stage_gone; [done |]. rewrite Hp. apply not_elem_of_nil.
Qed.

End Finite.

(* ===================================================================== *)
(** * The stated properties *)
(* ===================================================================== *)

(** ** The filters *)

(** C5.  [isSameDomain root url] holds exactly when [url] has [root] as a
    literal prefix.  So, for the root [http://golang.org], the URL
    [http://golang.org2/x] counts as in the domain, and an https URL of the
    same host counts as outside it. *)
Theorem isSameDomain_prefix :
  (forall root url : string,
     isSameDomain root url = true <-> exists rest, url = root +:+ rest) /\
  isSameDomain "http://golang.org" "http://golang.org2/x" = true /\
  isSameDomain "http://golang.org" "https://golang.org/x" = false.
Proof.
  split; [| by split].
  intros root url. unfold isSameDomain. rewrite <- HasPrefix_spec.
  by destruct (GoStrings.HasPrefix url root).
Qed.

(** The classification of images as the specification words it: the URL
    ends, in any case, in a dot and one of the five extensions. *)
Definition ends_in_image_extension (u : string) : Prop :=
  exists pre ext, u = pre +:+ "." +:+ ext /\ lower ext ∈ imageExtensions.

(** C6, as stated, fails: [.jpg] ends in an image extension, but the pattern
    asks for at least one byte before the dot. *)
Lemma isImageLink_bare_extension :
  ends_in_image_extension ".jpg" /\ isImageLink ".jpg" = false.
Proof.
  split; [| reflexivity].
  exists ""%string, "jpg"%string. split; [reflexivity |].
  simpl. unfold imageExtensions. by left.
Qed.

(** C6, amended.  [isImageLink u] holds exactly when the whole string [u]
    ends in a byte that is not white space, a dot, and one of jpg, png, gif,
    bmp, tiff in any case. *)
Theorem isImageLink_spec (u : string) :
  isImageLink u = true <->
  exists pre c ext,
    u = pre +:+ String c ("." +:+ ext) /\
    Regexp.is_space c = false /\ lower ext ∈ imageExtensions.
Proof.
  unfold isImageLink.
  transitivity (Regexp.MatchString imagePattern u = true);
    [by destruct (Regexp.MatchString imagePattern u) |].
  rewrite MatchString_imagePattern. split.
  - intros (pre & c & ext & Hu & Hc & Hext).
    exists (unbytes pre), c, (unbytes ext). split; [| done].
    apply bytes_inj. rewrite Hu, bytes_app. simpl.
    by rewrite str_app_nil_l, !bytes_unbytes.
  - intros (pre & c & ext & -> & Hc & Hext).
    exists (Regexp.bytes pre), c, (Regexp.bytes ext).
    rewrite bytes_app, unbytes_bytes. simpl. by rewrite str_app_nil_l.
Qed.

(** ** The test of crawler_test.go as a running example *)

Definition golang : string := "http://golang.org".

Definition tester_run : list event * state :=
  @run (testFetcher tester) golang 100 init.

Definition tester_trace : list event := fst tester_run.
Definition tester_final : state := snd tester_run.

Lemma tester_exec : @exec (testFetcher tester) golang init tester_trace tester_final.
Proof. exact (@run_exec (testFetcher tester) golang 100 init). Qed.

Lemma tester_complete :
  @complete (testFetcher tester) golang tester_trace tester_final.
Proof. split; [exact tester_exec | by vm_compute]. Qed.

(** ** Keys of the sitemap *)

(** C2.  In every state a crawl reaches, and so when it is complete, every
    key of [sitemap] has passed the filters: it is no image link and it lies
    in the domain of the seed.  Images and foreign links occur in the value
    lists only. *)
Theorem sitemap_keys_eligible `{Fetcher} (url : string) tr s :
  exec url init tr s ->
  forall key links, sitemap s !! key = Some links ->
    isImageLink key = false /\ isSameDomain url key = true.
Proof.
  intros Hex key links Hk.
  destruct (wf_exec _ _ _ Hex) as [Hv _ _ Hsm _ _].
  destruct (Hsm _ _ Hk) as [[b Hb] _]. by destruct (Hv _ _ Hb) as (_ & ? & ?).
Qed.

Lemma sitemap_keys_eligible_witness :
  @exec (testFetcher tester) golang init tester_trace tester_final /\
  (forall key links, sitemap tester_final !! key = Some links ->
     isImageLink key = false /\ isSameDomain golang key = true) /\
  sitemap tester_final !! golang =
    Some [ "http://golang.org/test.html"; "http://golang.org/test2.html";
           "http://golang.org/images/gopher.jpg"; "http://goweeklynews.com" ]%string.
Proof.
  split; [exact tester_exec |]. split; [| by vm_compute].
  exact (@sitemap_keys_eligible (testFetcher tester) golang tester_trace
           tester_final tester_exec).
Defined.

(** ** Discovery happens once *)

(** C3.  Along every execution a link is marked and its worker spawned at
    most once, whatever the number of links and cycles leading to it; there
    is at most one worker for it, which fetches at most once and writes its
    entry of [sitemap] at most once, and exactly once when the entry exists.
    When the loop meets a link already marked, it skips it: the state stays
    as it is but for the position of the loop.  An entry once written is
    never overwritten. *)
Theorem discovered_once `{Fetcher} (url : string) tr s link :
  exec url init tr s ->
  times (is_spawn link) tr <= 1 /\
  count (works_on link) (pool s) <= 1 /\
  times (is_get link) tr <= 1 /\
  times (is_store link) tr <= 1 /\
  (is_Some (sitemap s !! link) -> times (is_store link) tr = 1) /\
  (forall rest, sched s = SRange (link :: rest) -> seen s link = true ->
     fire url Main s = Some (ESkip link, set_sched (SRange rest) s)) /\
  (forall e s' l, step url s e s' ->
     sitemap s !! link = Some l -> sitemap s' !! link = Some l).
Proof.
  intros Hex.
  rewrite (times_spawn url tr s link Hex), (times_get url tr s link Hex),
    (times_store url tr s link Hex).
  split; [case_match; lia |].
  split; [apply count_works_on_nodup; by destruct (wf_exec url tr s Hex) |].
  split; [case_match; lia |]. split; [case_match; lia |]. split; [| split].
  - intros Hs. pose proof (stage_stored url tr s link Hex Hs) as Hst.
    by rewrite (proj2 (Nat.ltb_lt _ _)) by lia.
  - intros rest Hsched Hseen. simpl. unfold fire_sched, eligible.
    by rewrite Hsched, Hseen.
  - intros e s' l. by apply (sitemap_stable url tr s).
Qed.

Lemma discovered_once_witness :
  @exec (testFetcher tester) golang init tester_trace tester_final /\
  times (is_spawn golang) tester_trace <= 1 /\
  count (works_on golang) (pool tester_final) <= 1 /\
  times (is_get golang) tester_trace <= 1 /\
  times (is_store golang) tester_trace <= 1 /\
  (is_Some (sitemap tester_final !! golang) ->
   times (is_store golang) tester_trace = 1) /\
  (forall rest, sched tester_final = SRange (golang :: rest) ->
     @seen tester_final golang = true ->
     @fire (testFetcher tester) golang Main tester_final
       = Some (ESkip golang, set_sched (SRange rest) tester_final)) /\
  (forall e s' l, @step (testFetcher tester) golang tester_final e s' ->
     sitemap tester_final !! golang = Some l -> sitemap s' !! golang = Some l).
Proof.
  split; [exact tester_exec |].
  exact (@discovered_once (testFetcher tester) golang tester_trace
           tester_final golang tester_exec).
Defined.

(** ** The limiter *)

Definition tester_mid_run : list event * state :=
  @run (testFetcher tester) golang 7 init.

Lemma tester_mid_exec :
  @exec (testFetcher tester) golang init (fst tester_mid_run) (snd tester_mid_run).
Proof. exact (@run_exec (testFetcher tester) golang 7 init). Qed.

(** C8.  The limiter has 20 slots.  In every state of a crawl the channel
    [counter] holds as many values as there are calls of [fetcher.Get] in
    flight, and never more than 20.  A worker takes its slot once, before
    its call of [Get], and gives it back once, after the call and before the
    error is looked at: a worker that has left [getLinks], with or without
    an error, has taken one slot and given one back. *)
Theorem limiter_bounds_fetches `{Fetcher} (url : string) tr s :
  exec url init tr s ->
  limit = 20 /\
  counter s = count in_flight (pool s) /\
  count in_flight (pool s) <= 20 /\
  (forall link,
     times (is_release link) tr <= times (is_get link) tr /\
     times (is_get link) tr <= times (is_acquire link) tr /\
     times (is_acquire link) tr <= 1) /\
  (forall link pc, Worker link pc ∈ pool s ->
     times (is_acquire link) tr = match pc with WAcquire => 0 | _ => 1 end /\
     times (is_release link) tr =
       match pc with WAcquire | WGet | WRelease _ => 0 | _ => 1 end) /\
  (forall link, is_Some (visited s !! link) -> link ∉ links_of (pool s) ->
     times (is_acquire link) tr = 1 /\ times (is_get link) tr = 1 /\
     times (is_release link) tr = 1).
Proof.
  intros Hex. destruct (limiter_exec url tr s Hex) as [Hc Hle].
  split; [done |]. split; [done |]. split; [by rewrite <- Hc |].
  split; [| split].
  - intros link.
    rewrite (times_acquire url tr s link Hex), (times_get url tr s link Hex),
      (times_release url tr s link Hex).
    repeat case_match; rewrite ?Nat.ltb_lt, ?Nat.ltb_ge in *; lia.
  - intros link pc Hin.
    rewrite (times_acquire url tr s link Hex), (times_release url tr s link Hex),
      (stage_worker url tr s link pc Hex Hin).
    by destruct pc.
  - intros link Hv Hp.
    rewrite (times_acquire url tr s link Hex), (times_get url tr s link Hex),
      (times_release url tr s link Hex), (stage_gone s link Hv Hp).
    done.
Qed.

Lemma limiter_bounds_fetches_witness :
  @exec (testFetcher tester) golang init (fst tester_mid_run) (snd tester_mid_run) /\
  counter (snd tester_mid_run) = 1 /\
  limit = 20 /\
  counter (snd tester_mid_run) = count in_flight (pool (snd tester_mid_run)) /\
  count in_flight (pool (snd tester_mid_run)) <= 20.
Proof.
  split; [exact tester_mid_exec |]. split; [by vm_compute |].
  pose proof (@limiter_bounds_fetches (testFetcher tester) golang
                (fst tester_mid_run) (snd tester_mid_run) tester_mid_exec)
    as (H1 & H2 & H3 & _).
  exact (conj H1 (conj H2 H3)).
Defined.

(** ** Crawls of a finite link graph run to their end *)

Lemma step_returns `{Fetcher} (url : string) (U : list string)
    (U_reach : forall u, Reach url u -> u ∈ U)
    (U_fits : (Z.of_nat (length U) + 2 <= maxInt)%Z) tr s e s' :
  exec url init tr s -> step url s e s' ->
  sched s' = SReturn <-> sched s = SCond /\ n s = 0%Z.
Proof.
  intros Hex Hs.
  destruct (counted_exec url U U_reach U_fits tr s Hex) as (_ & Hn & _ & Hret).
  assert (Hex' : exec url init (tr ++ [e]) s') by (econstructor; eauto).
  destruct (counted_exec url U U_reach U_fits _ _ Hex') as (_ & _ & _ & Hret').
  apply step_trans in Hs.
  destruct Hs; simpl in *;
    try (split; [intros ->; specialize (Hret' eq_refl); by destruct p1
                | intros [-> ?]; rewrite ?length_app in *; simpl in *; lia]).
  - split; [done | lia].
  - split; [intros _; split; [done | lia] | done].
  - split; [done | by intros [[=] _]].
  - split; [done | by intros [[=] _]].
  - split; [done | by intros [[=] _]].
  - split; [done | by intros [[=] _]].
  - split; [done | by intros [[=] _]].
Qed.

(** C1.  On a finite link graph, cycles included, the crawl terminates.
    The count [n] starts at 1, goes up by one with every worker spawned and
    down by one for every list received, so that it always equals the number
    of goroutines that have not delivered yet, plus one while a received
    list is being ranged over.  No execution is longer than [measure U init];
    as long as [crawlDomain] has not returned some thread can move, and every
    execution extends to one that returns.  The loop is left exactly by a
    step from its test with [n = 0]; then every goroutine has delivered:
    none is left, and the deliveries are those of the seed and of every
    worker spawned. *)
Theorem crawl_terminates `{Fetcher} (url : string) (U : list string)
    (U_reach : forall u, Reach url u -> u ∈ U)
    (U_fits : (Z.of_nat (length U) + 2 <= maxInt)%Z) :
  n init = 1%Z /\
  forall tr s, exec url init tr s ->
    n s = (1 + Z.of_nat (times any_spawn tr) - Z.of_nat (times any_post tr))%Z /\
    times any_post tr + ranging (sched s) = times any_deliver tr /\
    n s = Z.of_nat (length (pool s) + ranging (sched s)) /\
    length tr <= measure U init /\
    (sched s <> SReturn -> exists e s', step url s e s') /\
    (exists tr' s', exec url init (tr ++ tr') s' /\ sched s' = SReturn) /\
    (forall e s', step url s e s' ->
       sched s' = SReturn <-> sched s = SCond /\ n s = 0%Z) /\
    (sched s = SReturn ->
       pool s = [] /\ n s = 0%Z /\
       times any_deliver tr = 1 + times any_spawn tr /\
       forall link, times (is_delivery link) tr = times (is_spawn link) tr).
Proof.
  split; [done |]. intros tr s Hex.
  destruct (counted_exec url U U_reach U_fits tr s Hex) as (_ & Hn & _ & Hret).
  destruct (tally_exec url tr s Hex) as [Ht1 Ht2].
  pose proof (measure_exec url U U_reach tr s Hex) as Hm.
  split; [lia |]. split; [done |]. split; [done |]. split; [lia |].
  split; [by apply (progress url U U_reach U_fits tr) |].
  split; [by apply (completes url U U_reach U_fits tr s) |].
  split; [intros e s'; by apply (step_returns url U U_reach U_fits tr s) |].
  intros Hs. specialize (Hret Hs). rewrite Hret, Hs in *. simpl in *.
  split; [done |]. split; [lia |]. split; [lia |].
  intros link.
  rewrite (times_delivery url tr s link Hex), (times_spawn url tr s link Hex).
  destruct (visited s !! link) as [b|] eqn:Hv.
  - rewrite (stage_gone s link); [done | by rewrite Hv |].
    rewrite Hret. apply not_elem_of_nil.
  - by rewrite (stage_unvisited s link Hv).
Qed.

(** The pages of the test that pass the filters. *)
Definition tester_pages : list string :=
  [ golang; "http://golang.org/test.html"; "http://golang.org/test2.html";
    "http://golang.org/testing.html" ]%string.

Lemma tester_reach (u : string) :
  @Reach (testFetcher tester) golang u -> u ∈ tester_pages.
Proof.
  induction 1 as [_ | u l _ IH Hin Hpass]; [by left |].
  unfold tester_pages in IH. rewrite !elem_of_cons, elem_of_nil in IH.
  destruct IH as [-> | [-> | [-> | [-> | []]]]];
    vm_compute in Hin;
    repeat (apply elem_of_cons in Hin as [-> | Hin];
            [first [by vm_compute in Hpass
                   | unfold tester_pages, golang;
                     rewrite !elem_of_cons; by auto 10] |]);
    by apply elem_of_nil in Hin.
Qed.

Lemma tester_reached (u : string) :
  u ∈ tester_pages -> @Reach (testFetcher tester) golang u.
Proof.
  assert (H0 : @Reach (testFetcher tester) golang golang)
    by (by apply Reach_seed).
  assert (H1 : @Reach (testFetcher tester) golang "http://golang.org/test.html").
  { apply (Reach_link golang golang); [done | | done].
    vm_compute. by left. }
  assert (H2 : @Reach (testFetcher tester) golang "http://golang.org/test2.html").
  { apply (Reach_link golang golang); [done | | done].
    vm_compute. right. by left. }
  assert (H3 : @Reach (testFetcher tester) golang "http://golang.org/testing.html").
  { apply (Reach_link golang "http://golang.org/test.html"); [done | | done].
    vm_compute. by left. }
  unfold tester_pages. rewrite !elem_of_cons, elem_of_nil.
  by intros [-> | [-> | [-> | [-> | []]]]].
Qed.

Lemma tester_fits : (Z.of_nat (length tester_pages) + 2 <= maxInt)%Z.
Proof. by vm_compute. Qed.

Lemma crawl_terminates_witness :
  n init = 1%Z /\
  @exec (testFetcher tester) golang init tester_trace tester_final /\
  length tester_trace <= @measure (testFetcher tester) tester_pages init /\
  (sched tester_final = SReturn ->
     pool tester_final = [] /\ n tester_final = 0%Z /\
     times any_deliver tester_trace = 1 + times any_spawn tester_trace /\
     forall link, times (is_delivery link) tester_trace
                  = times (is_spawn link) tester_trace).
Proof.
  pose proof (@crawl_terminates (testFetcher tester) golang tester_pages
                tester_reach tester_fits) as [H1 H2].
  destruct (H2 tester_trace tester_final tester_exec)
    as (_ & _ & _ & H3 & _ & _ & _ & H4).
  exact (conj H1 (conj tester_exec (conj H3 H4))).
Defined.

(** ** The sitemap of a complete crawl *)

(** C4.  When the crawl is complete, [sitemap] has as many entries as
    [visited] has marks: the keys of the one are the links of the other,
    a link is a key exactly when it was marked during the crawl, and each
    link marked has had its entry written once. *)
Theorem sitemap_size `{Fetcher} (url : string) (U : list string)
    (U_reach : forall u, Reach url u -> u ∈ U)
    (U_fits : (Z.of_nat (length U) + 2 <= maxInt)%Z) tr s :
  complete url tr s ->
  size (sitemap s) = size (visited s) /\
  dom (sitemap s) = dom (visited s) /\
  (forall link, is_Some (sitemap s !! link) <-> times (is_spawn link) tr = 1) /\
  (forall link, times (is_spawn link) tr = 1 -> times (is_store link) tr = 1).
Proof.
  intros Hc. pose proof Hc as [Hex _].
  pose proof (complete_dom url U U_reach U_fits tr s Hc) as Hdom.
  assert (Hsp : forall link,
            times (is_spawn link) tr = 1 <-> is_Some (visited s !! link)).
  { intros link. rewrite (times_spawn url tr s link Hex). split.
    - destruct (visited s !! link) eqn:Hv; [done |].
      by rewrite (stage_unvisited s link Hv).
    - intros Hv. by rewrite (complete_stage url U U_reach U_fits tr s link Hc Hv). }
  split; [by rewrite <- !size_dom, Hdom |]. split; [done |]. split.
  - intros link. by rewrite Hsp, <- !elem_of_dom, Hdom.
  - intros link Hv%Hsp. rewrite (times_store url tr s link Hex).
    by rewrite (complete_stage url U U_reach U_fits tr s link Hc Hv).
Qed.

Lemma sitemap_size_witness :
  @complete (testFetcher tester) golang tester_trace tester_final /\
  size (sitemap tester_final) = 4 /\
  size (sitemap tester_final) = size (visited tester_final) /\
  dom (sitemap tester_final) = dom (visited tester_final).
Proof.
  split; [exact tester_complete |]. split; [by vm_compute |].
  pose proof (@sitemap_size (testFetcher tester) golang tester_pages
                tester_reach tester_fits tester_trace tester_final
                tester_complete) as (H1 & H2 & _).
  exact (conj H1 H2).
Defined.

(** ** Fetches that fail *)

(** A table whose only page links to a page it does not hold. *)
Definition broken : gmap string (list string) :=
  {[ golang := [ "http://golang.org/missing" ]%string ]}.

Definition broken_run : list event * state :=
  @run (testFetcher broken) golang 100 init.

Definition broken_pages : list string :=
  [ golang; "http://golang.org/missing" ]%string.

Lemma broken_complete :
  @complete (testFetcher broken) golang (fst broken_run) (snd broken_run).
Proof.
  split; [exact (@run_exec (testFetcher broken) golang 100 init) | by vm_compute].
Qed.

Lemma broken_reach (u : string) :
  @Reach (testFetcher broken) golang u -> u ∈ broken_pages.
Proof.
  induction 1 as [_ | u l _ IH Hin Hpass]; [by left |].
  unfold broken_pages in IH. rewrite !elem_of_cons, elem_of_nil in IH.
  destruct IH as [-> | [-> | []]];
    vm_compute in Hin;
    repeat (apply elem_of_cons in Hin as [-> | Hin];
            [unfold broken_pages; rewrite !elem_of_cons; by auto |]);
    by apply elem_of_nil in Hin.
Qed.

Lemma broken_fits : (Z.of_nat (length broken_pages) + 2 <= maxInt)%Z.
Proof. by vm_compute. Qed.

(** C7.  When [fetcher.Get] fails, [getLinks] returns the empty list.  A
    crawl never gets stuck and can always be run to its normal end, whatever
    fetches fail.  In a complete crawl a page whose fetch failed has been
    fetched once, its error has been printed, it has the empty list as its
    entry of [sitemap], and its worker has delivered the empty list, once. *)
Theorem fetch_failure_absorbed `{Fetcher} (url : string) (U : list string)
    (U_reach : forall u, Reach url u -> u ∈ U)
    (U_fits : (Z.of_nat (length U) + 2 <= maxInt)%Z) :
  (forall links err, getLinks_result (links, Some err) = []) /\
  (forall tr s, exec url init tr s ->
     (sched s <> SReturn -> exists e s', step url s e s') /\
     exists tr' s', exec url init (tr ++ tr') s' /\ sched s' = SReturn) /\
  (forall tr s link err,
     complete url tr s -> is_Some (visited s !! link) ->
     snd (Get link) = Some err ->
     sitemap s !! link = Some [] /\
     times (is_get link) tr = 1 /\
     times (is_print link) tr = 1 /\
     EPrint link err ∈ tr /\ err ∈ stdout s /\
     times (is_delivery link) tr = 1 /\
     EDeliver (Some link) [] ∈ tr).
Proof.
  split; [done |]. split.
  - intros tr s Hex. split.
    + by apply (progress url U U_reach U_fits tr).
    + by apply (completes url U U_reach U_fits tr s).
  - intros tr s link err Hc Hv Herr. pose proof Hc as [Hex _].
    pose proof (complete_stage url U U_reach U_fits tr s link Hc Hv) as Hst.
    assert (Hres : result link = []).
    { unfold result. destruct (Get link) as [links e]. simpl in Herr.
      by subst e. }
    assert (Hp : EPrint link err ∈ tr).
    { apply (life_whole url tr s link); [done | done |].
      unfold lifecycle. rewrite Herr. do 4 right. by left. }
    split.
    { rewrite <- Hres.
      apply (complete_sitemap url U U_reach U_fits tr s); [done |].
      split; [| done]. by apply (complete_visited url U U_reach U_fits tr s). }
    rewrite (times_get url tr s link Hex), (times_print url tr s link Hex),
      (times_delivery url tr s link Hex), Herr, Hst.
    split; [done |]. split; [done |]. split; [done |]. split.
    { rewrite (stdout_exec url tr s Hex). apply list_elem_of_omap.
      by exists (EPrint link err). }
    split; [done |].
    apply (life_whole url tr s link); [done | done |].
    unfold lifecycle. rewrite Hres. do 8 right. by left.
Qed.

Lemma fetch_failure_absorbed_witness :
  @complete (testFetcher broken) golang (fst broken_run) (snd broken_run) /\
  snd (@Get (testFetcher broken) "http://golang.org/missing")
    = Some "could not find URL http://golang.org/missing"%string /\
  sitemap (snd broken_run) !! "http://golang.org/missing"%string = Some [] /\
  times (is_get "http://golang.org/missing") (fst broken_run) = 1 /\
  stdout (snd broken_run)
    = [ "could not find URL http://golang.org/missing"%string ].
Proof.
  split; [exact broken_complete |]. split; [by vm_compute |].
  destruct (@fetch_failure_absorbed (testFetcher broken) golang broken_pages
              broken_reach broken_fits) as (_ & _ & H3).
  destruct (H3 (fst broken_run) (snd broken_run) "http://golang.org/missing"%string
              "could not find URL http://golang.org/missing"%string
              broken_complete) as (H4 & H5 & _).
  - vm_compute. by eexists.
  - by vm_compute.
  - split; [exact H4 |]. split; [exact H5 | by vm_compute].
Defined.

(** ** The test of crawler_test.go *)

Lemma tester_lookup_other (u : string) :
  u ∉ tester_pages -> tester !! u = None.
Proof.
  unfold tester_pages, golang. rewrite !not_elem_of_cons. intros (? & ? & ? & ? & _).
  unfold tester. simpl. by rewrite !lookup_insert_ne, lookup_empty.
Qed.

(** C9.  Whatever the schedule, the crawl of [http://golang.org] over the
    table [tester] ends with the table itself as its sitemap: four entries,
    for the seed, test.html, test2.html and testing.html; the image and the
    two foreign links are no keys; and every entry is as long as the list the
    table holds for its page. *)
Theorem tester_sitemap tr s :
  @complete (testFetcher tester) golang tr s ->
  sitemap s = tester /\
  size (sitemap s) = 4 /\
  dom (sitemap s) = list_to_set tester_pages /\
  sitemap s !! "http://golang.org/images/gopher.jpg"%string = None /\
  sitemap s !! "http://goweeklynews.com"%string = None /\
  sitemap s !! "http://linkedin.com/golang"%string = None /\
  (forall key links, sitemap s !! key = Some links ->
     exists links', tester !! key = Some links' /\ length links = length links').
Proof.
  intros Hc.
  assert (Heq : sitemap s = tester).
  { apply map_eq. intros u.
    destruct (decide (u ∈ tester_pages)) as [Hin | Hout].
    - assert (Hs : sitemap s !! u = Some (@result (testFetcher tester) u)).
      { apply (@complete_sitemap (testFetcher tester) golang tester_pages
                 tester_reach tester_fits tr s); [done |].
        split; [by apply tester_reached | done]. }
      rewrite Hs. unfold tester_pages in Hin.
      rewrite !elem_of_cons, elem_of_nil in Hin.
      by destruct Hin as [-> | [-> | [-> | [-> | []]]]]; vm_compute.
    - rewrite (tester_lookup_other u Hout).
      destruct (sitemap s !! u) as [l|] eqn:Hl; [| done].
      apply (@complete_sitemap (testFetcher tester) golang tester_pages
               tester_reach tester_fits tr s) in Hl as [Hr _]; [| done].
      by apply tester_reach in Hr. }
  rewrite Heq. split; [done |].
  clear Hc Heq.
  split; [vm_compute; reflexivity |]. split; [vm_compute; reflexivity |].
  split; [vm_compute; reflexivity |]. split; [vm_compute; reflexivity |].
  split; [vm_compute; reflexivity |].
  intros key links Hk. exists links. split; [exact Hk | reflexivity].
Qed.

Lemma tester_sitemap_witness :
  @complete (testFetcher tester) golang tester_trace tester_final /\
  sitemap tester_final = tester /\
  size (sitemap tester_final) = 4.
Proof.
  split; [exact tester_complete |].
  pose proof (tester_sitemap tester_trace tester_final tester_complete)
    as (H1 & H2 & _).
  exact (conj H1 H2).
Defined.

(** ** The seed *)

Definition gopher : string := "http://golang.org/images/gopher.jpg".

Definition gopher_run : list event * state :=
  @run (testFetcher tester) gopher 100 init.

Lemma gopher_complete :
  @complete (testFetcher tester) gopher (fst gopher_run) (snd gopher_run).
Proof.
  split; [exact (@run_exec (testFetcher tester) gopher 100 init) | by vm_compute].
Qed.

Lemma image_seed_unreachable `{Fetcher} (url u : string) :
  isImageLink url = true -> Reach url u -> False.
Proof.
  intros Himg. induction 1 as [Hpass | u l _ IH _ _]; [| done].
  unfold passes in Hpass. by rewrite Himg in Hpass.
Qed.

Lemma isSameDomain_refl (root : string) : isSameDomain root root = true.
Proof.
  unfold isSameDomain.
  by rewrite (proj2 (HasPrefix_spec root root))
    by (exists ""%string; by rewrite str_app_nil_r).
Qed.

(** C10.  The seed goes through the same filters as every other link.  It
    always lies in its own domain, so when it is no image link it is fetched,
    once, and becomes a key of the sitemap; when it is an image link nothing
    is fetched at all and the sitemap stays empty. *)
Theorem seed_filtered `{Fetcher} (url : string) (U : list string)
    (U_reach : forall u, Reach url u -> u ∈ U)
    (U_fits : (Z.of_nat (length U) + 2 <= maxInt)%Z) :
  (forall root, isSameDomain root root = true) /\
  (forall tr s, complete url tr s ->
     (isImageLink url = false ->
        sitemap s !! url = Some (getLinks_result (Get url)) /\
        times (is_get url) tr = 1) /\
     (isImageLink url = true ->
        sitemap s = ∅ /\ forall link, times (is_get link) tr = 0)).
Proof.
  split; [apply isSameDomain_refl |].
  intros tr s Hc. pose proof Hc as [Hex _]. split.
  - intros Himg.
    assert (Hr : Reach url url).
    { apply Reach_seed. unfold passes. by rewrite Himg, isSameDomain_refl. }
    split.
    + by apply (complete_sitemap url U U_reach U_fits tr s).
    + rewrite (times_get url tr s url Hex).
      rewrite (complete_stage url U U_reach U_fits tr s url Hc); [done |].
      by apply (complete_visited url U U_reach U_fits tr s).
  - intros Himg.
    destruct (sound_exec url tr s Hex) as [Hsound _].
    destruct (wf_exec url tr s Hex) as [_ _ _ Hsm _ _].
    assert (Hnone : forall link, visited s !! link = None).
    { intros link. destruct (visited s !! link) as [b|] eqn:Hv; [| done].
      destruct (image_seed_unreachable url link Himg). apply Hsound.
      by rewrite Hv. }
    split.
    + apply map_eq. intros link. rewrite lookup_empty.
      destruct (sitemap s !! link) as [l|] eqn:Hl; [| done].
      destruct (Hsm _ _ Hl) as [[b Hb] _]. by rewrite Hnone in Hb.
    + intros link. rewrite (times_get url tr s link Hex).
      by rewrite (stage_unvisited s link (Hnone link)).
Qed.

Lemma seed_filtered_witness :
  (@complete (testFetcher tester) golang tester_trace tester_final /\
   isImageLink golang = false /\
   sitemap tester_final !! golang
     = Some (getLinks_result (@Get (testFetcher tester) golang)) /\
   times (is_get golang) tester_trace = 1) /\
  (@complete (testFetcher tester) gopher (fst gopher_run) (snd gopher_run) /\
   isImageLink gopher = true /\
   sitemap (snd gopher_run) = ∅ /\
   forall link, times (is_get link) (fst gopher_run) = 0).
Proof.
  split.
  - split; [exact tester_complete |]. split; [vm_compute; reflexivity |].
    destruct (@seed_filtered (testFetcher tester) golang tester_pages
                tester_reach tester_fits) as [_ H2].
    destruct (H2 tester_trace tester_final tester_complete) as [H3 _].
    apply H3. vm_compute; reflexivity.
  - split; [exact gopher_complete |]. split; [vm_compute; reflexivity |].
    assert (Hreach : forall u, @Reach (testFetcher tester) gopher u -> u ∈ [])
      by (intros u Hu; destruct (@image_seed_unreachable (testFetcher tester)
                                   gopher u eq_refl Hu)).
    assert (Hfits : (Z.of_nat (length (@nil string)) + 2 <= maxInt)%Z)
      by (by vm_compute).
    destruct (@seed_filtered (testFetcher tester) gopher [] Hreach Hfits)
      as [_ H2].
    destruct (H2 (fst gopher_run) (snd gopher_run) gopher_complete) as [_ H3].
    apply H3. vm_compute; reflexivity.
Defined.

(* ===================================================================== *)
(** * Further properties of the code *)
(* ===================================================================== *)

(** ** What [crawlDomain] builds *)

(** X1.  A complete crawl has built exactly the sitemap of the pages that
    can be reached from the seed through links that pass the filters: a link
    is a key exactly when it can be reached, its entry is what [getLinks]
    returns for it, and [visited] marks the same links, always with [true]. *)
Theorem crawl_sitemap_exact `{Fetcher} (url : string) (U : list string)
    (U_reach : forall u, Reach url u -> u ∈ U)
    (U_fits : (Z.of_nat (length U) + 2 <= maxInt)%Z) tr s :
  complete url tr s ->
  (forall u l, sitemap s !! u = Some l <->
               Reach url u /\ l = getLinks_result (Get u)) /\
  (forall u, visited s !! u = Some true <-> Reach url u) /\
  (forall u, visited s !! u = Some false -> False).
Proof.
  intros Hc. pose proof Hc as [Hex _].
  destruct (wf_exec url tr s Hex) as [Hv _ _ _ _ _].
  split; [| split].
  - intros u l. by apply (complete_sitemap url U U_reach U_fits tr s).
  - intros u. rewrite <- (complete_visited url U U_reach U_fits tr s u Hc).
    split; [by intros -> |].
    intros [b Hb]. by destruct (Hv _ _ Hb) as [-> _].
  - intros u Hu. by destruct (Hv _ _ Hu) as [? _].
Qed.

Lemma crawl_sitemap_exact_witness :
  @complete (testFetcher tester) golang tester_trace tester_final /\
  (forall u l, sitemap tester_final !! u = Some l <->
     @Reach (testFetcher tester) golang u /\
     l = getLinks_result (@Get (testFetcher tester) u)) /\
  (forall u, visited tester_final !! u = Some true <->
     @Reach (testFetcher tester) golang u) /\
  (forall u, visited tester_final !! u = Some false -> False).
Proof.
  split; [exact tester_complete |].
  exact (@crawl_sitemap_exact (testFetcher tester) golang tester_pages
           tester_reach tester_fits tester_trace tester_final tester_complete).
Defined.

(** Another schedule of the same crawl: the goroutines move before the
    loop does, the last one started first. *)
Fixpoint last_go `{Fetcher} (url : string) (k : nat) (s : state)
    : option (event * state) :=
  match k with
  | O => None
  | S k' =>
      match fire url (Go k') s with
      | Some r => Some r
      | None => last_go url k' s
      end
  end.

Definition next_eager `{Fetcher} (url : string) (s : state)
    : option (event * state) :=
  match last_go url (length (pool s)) s with
  | Some r => Some r
  | None => fire url Main s
  end.

Fixpoint run_eager `{Fetcher} (url : string) (fuel : nat) (s : state)
    : list event * state :=
  match fuel with
  | O => ([], s)
  | S fuel' =>
      match next_eager url s with
      | Some (e, s') =>
          let (tr, s'') := run_eager url fuel' s' in (e :: tr, s'')
      | None => ([], s)
      end
  end.

Lemma last_go_step `{Fetcher} (url : string) k s e s' :
  last_go url k s = Some (e, s') -> step url s e s'.
Proof.
  induction k as [|k IH]; [done |].
  change (last_go url (S k) s)
    with (match fire url (Go k) s with
          | Some r => Some r
          | None => last_go url k s
          end).
  destruct (fire url (Go k) s) as [r|] eqn:Hf.
  - intros [= ->]. by exists (Go k).
  - apply IH.
Qed.

Lemma run_eager_exec `{Fetcher} (url : string) fuel s :
  exec url s (fst (run_eager url fuel s)) (snd (run_eager url fuel s)).
Proof.
  revert s; induction fuel as [|fuel IH]; intros s; simpl; [constructor |].
  destruct (next_eager url s) as [[e s']|] eqn:Hn; [| constructor].
  specialize (IH s'). destruct (run_eager url fuel s') as [tr s'']. simpl in *.
  eapply exec_cons; [| done].
  unfold next_eager in Hn.
  destruct (last_go url (length (pool s)) s) as [r|] eqn:Hl.
  - injection Hn as ->. by eapply last_go_step.
  - by exists Main.
Qed.

Definition tester_eager_run : list event * state :=
  @run_eager (testFetcher tester) golang 100 init.

Lemma tester_eager_complete :
  @complete (testFetcher tester) golang (fst tester_eager_run)
    (snd tester_eager_run).
Proof.
  split; [exact (@run_eager_exec (testFetcher tester) golang 100 init) |].
  vm_compute; reflexivity.
Qed.

Lemma complete_same_sitemap `{Fetcher} (url : string) (U : list string)
    (U_reach : forall u, Reach url u -> u ∈ U)
    (U_fits : (Z.of_nat (length U) + 2 <= maxInt)%Z) tr1 s1 tr2 s2 :
  complete url tr1 s1 -> complete url tr2 s2 -> sitemap s1 = sitemap s2.
Proof.
  intros H1 H2. apply map_eq; intros u.
  destruct (sitemap s1 !! u) as [l|] eqn:Hl.
  - apply (complete_sitemap url U U_reach U_fits tr1 s1) in Hl; [| done].
    symmetry. by apply (complete_sitemap url U U_reach U_fits tr2 s2).
  - destruct (sitemap s2 !! u) as [l|] eqn:Hl2; [| done].
    apply (complete_sitemap url U U_reach U_fits tr2 s2) in Hl2; [| done].
    apply (complete_sitemap url U U_reach U_fits tr1 s1) in Hl2; [| done].
    congruence.
Qed.

(** X2.  The result does not depend on the schedule: two complete crawls of
    the same seed with the same fetcher end with the same [sitemap] and the
    same [visited], whatever the order in which their goroutines ran. *)
Theorem crawl_result_unique `{Fetcher} (url : string) (U : list string)
    (U_reach : forall u, Reach url u -> u ∈ U)
    (U_fits : (Z.of_nat (length U) + 2 <= maxInt)%Z) tr1 s1 tr2 s2 :
  complete url tr1 s1 -> complete url tr2 s2 ->
  sitemap s1 = sitemap s2 /\ visited s1 = visited s2.
Proof.
  intros H1 H2.
  split; [by apply (complete_same_sitemap url U U_reach U_fits tr1 s1 tr2 s2) |].
  apply map_eq; intros u.
  - pose proof H1 as [Hex1 _]. pose proof H2 as [Hex2 _].
    destruct (wf_exec url tr1 s1 Hex1) as [Hv1 _ _ _ _ _].
    destruct (wf_exec url tr2 s2 Hex2) as [Hv2 _ _ _ _ _].
    pose proof (complete_visited url U U_reach U_fits tr1 s1 u H1) as Hr1.
    pose proof (complete_visited url U U_reach U_fits tr2 s2 u H2) as Hr2.
    destruct (visited s1 !! u) as [b1|] eqn:Hb1.
    + destruct (Hv1 _ _ Hb1) as [-> _].
      destruct (proj2 Hr2 (proj1 Hr1 (mk_is_Some _ _ eq_refl))) as [b2 Hb2].
      rewrite Hb2. by destruct (Hv2 _ _ Hb2) as [-> _].
    + destruct (visited s2 !! u) as [b2|] eqn:Hb2; [| done].
      destruct (proj2 Hr1 (proj1 Hr2 (mk_is_Some _ _ eq_refl))) as [? [=]].
Qed.

Lemma crawl_result_unique_witness :
  @complete (testFetcher tester) golang tester_trace tester_final /\
  @complete (testFetcher tester) golang (fst tester_eager_run)
    (snd tester_eager_run) /\
  sitemap tester_final = sitemap (snd tester_eager_run) /\
  visited tester_final = visited (snd tester_eager_run).
Proof.
  split; [exact tester_complete |]. split; [exact tester_eager_complete |].
  exact (@crawl_result_unique (testFetcher tester) golang tester_pages
           tester_reach tester_fits _ _ _ _ tester_complete
           tester_eager_complete).
Defined.

(** ** The mutex around [sitemap] *)

Definition any_lock (e : event) : bool :=
  match e with ELock _ => true | _ => false end.

Definition any_unlock (e : event) : bool :=
  match e with EUnlock _ => true | _ => false end.

Lemma count_elem (f : goroutine -> bool) g p :
  g ∈ p -> f g = true -> 1 <= count f p.
Proof.
  intros Hin Hf. apply list_elem_of_split in Hin as (p1 & p2 & ->).
  rewrite count_app. simpl. rewrite Hf. lia.
Qed.

Lemma lock_balance `{Fetcher} (url : string) tr s :
  exec url init tr s ->
  times any_lock tr = times any_unlock tr + (if mutex s then 1 else 0).
Proof.
  intros Hex.
  apply (exec_inv url
           (fun tr s => times any_lock tr
                        = times any_unlock tr + (if mutex s then 1 else 0))
           init) with (tr := tr); [done | | done].
  intros tr0 s0 e s1 _ IH Ht. rewrite !times_snoc.
  destruct Ht; simpl in *; lia.
Qed.

(** X3.  The writes to [sitemap] exclude each other: in every state of a
    crawl at most one worker stands between [mutex.Lock()] and
    [mutex.Unlock()], the mutex is locked exactly when there is one, a
    worker about to write holds it, and in the trace every [Lock] but the
    one still held has been followed by its [Unlock]. *)
Theorem sitemap_writes_exclusive `{Fetcher} (url : string) tr s :
  exec url init tr s ->
  count in_critical (pool s) <= 1 /\
  (mutex s = true <-> count in_critical (pool s) = 1) /\
  (forall link l, Worker link (WStore l) ∈ pool s -> mutex s = true) /\
  (forall link l l', Worker link (WStore l) ∈ pool s ->
     forall link', Worker link' (WStore l') ∈ pool s -> link' = link) /\
  times any_lock tr = times any_unlock tr + (if mutex s then 1 else 0).
Proof.
  intros Hex. pose proof (mutex_exec url tr s Hex) as Hm. unfold mutex_ok in Hm.
  destruct (wf_exec url tr s Hex) as [_ Hnd _ _ _ _].
  assert (Hheld : forall link l, Worker link (WStore l) ∈ pool s ->
                                 mutex s = true).
  { intros link l Hin.
    pose proof (count_elem in_critical _ _ Hin eq_refl) as Hc.
    destruct (mutex s); [done | lia]. }
  split; [destruct (mutex s); lia |].
  split; [destruct (mutex s); split; (done || lia) |].
  split; [done |]. split; [| by apply (lock_balance url)].
  intros link l l' Hin link' Hin'.
  apply list_elem_of_split in Hin as (p1 & p2 & Hp). rewrite Hp in *.
  apply elem_of_middle in Hin' as [[= -> _] | Hin']; [done |].
  rewrite count_app in Hm. simpl in Hm.
  assert (1 <= count in_critical (p1 ++ p2))
    by (by eapply count_elem).
  rewrite count_app in *. destruct (mutex s); lia.
Qed.

Definition tester_locked_run : list event * state :=
  @run (testFetcher tester) golang 10 init.

Lemma tester_locked_exec :
  @exec (testFetcher tester) golang init (fst tester_locked_run)
    (snd tester_locked_run).
Proof. exact (@run_exec (testFetcher tester) golang 10 init). Qed.

Lemma sitemap_writes_exclusive_witness :
  @exec (testFetcher tester) golang init (fst tester_locked_run)
    (snd tester_locked_run) /\
  mutex (snd tester_locked_run) = true /\
  count in_critical (pool (snd tester_locked_run)) <= 1 /\
  (mutex (snd tester_locked_run) = true <->
   count in_critical (pool (snd tester_locked_run)) = 1).
Proof.
  split; [exact tester_locked_exec |]. split; [vm_compute; reflexivity |].
  pose proof (@sitemap_writes_exclusive (testFetcher tester) golang
                (fst tester_locked_run) (snd tester_locked_run)
                tester_locked_exec) as (H1 & H2 & _).
  exact (conj H1 H2).
Defined.

(** ** What [getLinks] prints *)

Lemma printed_error_source `{Fetcher} (url : string) tr s err :
  exec url init tr s -> err ∈ stdout s ->
  exists link, Reach url link /\ snd (Get link) = Some err.
Proof.
  intros Hex. destruct (sound_exec url tr s Hex) as [Hsound _].
  rewrite (stdout_exec url tr s Hex), list_elem_of_omap.
  intros (e & He & Hp). destruct e; try done. simpl in Hp.
  injection Hp as ->. exists link.
  assert (Hin : EPrint link err ∈ take (stage s link) (lifecycle link)).
  { rewrite <- (life_exec url tr s Hex link).
    apply list_elem_of_In, List.filter_In. split; [by apply list_elem_of_In |].
    unfold about. simpl. by apply bool_decide_eq_true_2. }
  split.
  - apply Hsound. unfold stage, stage_of in Hin.
    destruct (visited s !! link); [done |].
    by apply elem_of_nil in Hin.
  - apply subseteq_take in Hin. unfold lifecycle in Hin.
    rewrite !elem_of_cons, elem_of_nil in Hin.
    destruct (snd (Get link)) as [e|];
      destruct Hin as [?|[?|[?|[?|[?|[?|[?|[?|[?|[]]]]]]]]]]; congruence.
Qed.

Lemma stdout_quiet `{Fetcher} (url : string) tr s :
  exec url init tr s -> (forall u, Reach url u -> snd (Get u) = None) ->
  stdout s = [].
Proof.
  intros Hex Hok. destruct (stdout s) as [|err out] eqn:Hout; [done |].
  destruct (printed_error_source url tr s err Hex) as (link & Hr & Herr).
  { rewrite Hout. by left. }
  rewrite (Hok link Hr) in Herr. done.
Qed.

(** X4.  [getLinks] prints errors of failed fetches and nothing else: every
    line on the output is the error [fetcher.Get] returned for a page the
    crawl has reached, and a crawl none of whose reachable pages fails
    prints nothing. *)
Theorem prints_only_fetch_errors `{Fetcher} (url : string) tr s :
  exec url init tr s ->
  (forall err, err ∈ stdout s ->
     exists link, Reach url link /\ snd (Get link) = Some err) /\
  ((forall u, Reach url u -> snd (Get u) = None) -> stdout s = []).
Proof.
  intros Hex. split.
  - intros err. by apply (printed_error_source url tr s).
  - by apply (stdout_quiet url tr s).
Qed.

Lemma prints_only_fetch_errors_witness :
  @exec (testFetcher broken) golang init (fst broken_run) (snd broken_run) /\
  stdout (snd broken_run)
    = [ "could not find URL http://golang.org/missing"%string ] /\
  (forall err, err ∈ stdout (snd broken_run) ->
     exists link, @Reach (testFetcher broken) golang link /\
                  snd (@Get (testFetcher broken) link) = Some err).
Proof.
  split; [exact (proj1 broken_complete) |]. split; [vm_compute; reflexivity |].
  exact (proj1 (@prints_only_fetch_errors (testFetcher broken) golang
                  (fst broken_run) (snd broken_run) (proj1 broken_complete))).
Defined.

(** ** The check of TestCrawler, for every table *)

(** X5.  Over a [testFetcher] table, whatever the table, the seed and the
    schedule, every entry of [sitemap] is the list the table holds for its
    key, and the empty list when the table has no such key.  So the check
    [len(links) != len(tester[url])] of TestCrawler can never fail, during
    the crawl or after it. *)
Theorem testFetcher_entries (t : gmap string (list string)) (url : string) tr s :
  @exec (testFetcher t) url init tr s ->
  forall key links, sitemap s !! key = Some links ->
    links = default [] (t !! key) /\
    length links = length (default [] (t !! key)).
Proof.
  intros Hex key links Hk.
  destruct (@wf_exec (testFetcher t) url tr s Hex) as [_ _ _ Hsm _ _].
  destruct (Hsm _ _ Hk) as [_ ->].
  unfold result. simpl. unfold testFetcher_Get.
  by destruct (t !! key).
Qed.

Lemma testFetcher_entries_witness :
  @exec (testFetcher broken) golang init (fst broken_run) (snd broken_run) /\
  sitemap (snd broken_run) !! "http://golang.org/missing"%string = Some [] /\
  broken !! "http://golang.org/missing"%string = None /\
  (forall key links, sitemap (snd broken_run) !! key = Some links ->
     links = default [] (broken !! key) /\
     length links = length (default [] (broken !! key))).
Proof.
  split; [exact (proj1 broken_complete) |]. split; [vm_compute; reflexivity |].
  split; [vm_compute; reflexivity |].
  exact (testFetcher_entries broken golang (fst broken_run) (snd broken_run)
           (proj1 broken_complete)).
Defined.

(** ** One fetch per page *)

Definition any_get (e : event) : bool :=
  match e with EGet _ => true | _ => false end.

(** A worker that has not called [fetcher.Get] yet. *)
Definition not_fetched (g : goroutine) : bool :=
  match g with
  | Worker _ WAcquire | Worker _ WGet => true
  | _ => false
  end.

Lemma fetch_tally `{Fetcher} (url : string) tr s :
  exec url init tr s ->
  size (visited s) = times any_spawn tr /\
  times any_get tr + count not_fetched (pool s) = times any_spawn tr.
Proof.
  intros Hex.
  apply (exec_inv url
           (fun tr s => exec url init tr s /\
              size (visited s) = times any_spawn tr /\
              times any_get tr + count not_fetched (pool s)
                = times any_spawn tr) init) with (tr := tr); [| | done].
  - split; [constructor |]. split; [| done]. simpl. apply map_size_empty.
  - intros tr0 s0 e s1 Hex0 (_ & Hsz & Hg) Ht. split.
    + econstructor; [done | by apply step_trans].
    + destruct (wf_exec url tr0 s0 Hex0) as [Hv _ _ _ _ _].
      rewrite !times_snoc.
      destruct Ht; simpl in *; rewrite ?count_app in *; simpl in *;
        try (split; lia).
      rewrite map_size_insert_None by (by eapply seen_false_visited).
      split; lia.
Qed.

(** X6.  The crawl calls [fetcher.Get] once per page and no more: at any
    moment the calls made are no more than the links marked in [visited],
    and when the crawl is complete their number is the number of entries of
    [sitemap]. *)
Theorem one_fetch_per_page `{Fetcher} (url : string) (U : list string)
    (U_reach : forall u, Reach url u -> u ∈ U)
    (U_fits : (Z.of_nat (length U) + 2 <= maxInt)%Z) tr s :
  exec url init tr s ->
  times any_get tr <= size (visited s) /\
  (sched s = SReturn -> times any_get tr = size (sitemap s)).
Proof.
  intros Hex. destruct (fetch_tally url tr s Hex) as [Hsz Hg].
  split; [lia |]. intros Hret.
  assert (Hc : complete url tr s) by done.
  destruct (complete_quiet url U U_reach U_fits tr s Hc) as (Hp & _).
  rewrite Hp in Hg. simpl in Hg.
  rewrite <- size_dom, (complete_dom url U U_reach U_fits tr s Hc), size_dom.
  lia.
Qed.

Lemma one_fetch_per_page_witness :
  @exec (testFetcher tester) golang init tester_trace tester_final /\
  times any_get tester_trace = 4 /\
  times any_get tester_trace <= size (visited tester_final) /\
  (sched tester_final = SReturn ->
   times any_get tester_trace = size (sitemap tester_final)).
Proof.
  split; [exact tester_exec |]. split; [vm_compute; reflexivity |].
  exact (@one_fetch_per_page (testFetcher tester) golang tester_pages
           tester_reach tester_fits tester_trace tester_final tester_exec).
Defined.

(** ** More on the filters *)

Lemma isSameDomain_iff (domain url : string) :
  isSameDomain domain url = true <-> exists rest, url = domain +:+ rest.
Proof.
  unfold isSameDomain. rewrite <- HasPrefix_spec.
  by destruct (GoStrings.HasPrefix url domain).
Qed.

Lemma str_app_nil_inv (a r : string) : a = a +:+ r -> r = ""%string.
Proof.
  intros Heq. apply (f_equal String.length) in Heq.
  rewrite str_length_app in Heq. destruct r; [done | simpl in Heq; lia].
Qed.

(** X7.  [isSameDomain] orders the URLs by prefix: every URL lies in its own
    domain, a domain inside a domain inside a third lies inside the third,
    two URLs that lie in each other's domain are equal, the empty seed
    admits every URL, and a URL is never shorter than its domain.  So a
    link that passes the filters of a crawl seeded deeper in a site passes
    those of a crawl seeded higher up. *)
Theorem isSameDomain_order :
  (forall a, isSameDomain a a = true) /\
  (forall a b c, isSameDomain a b = true -> isSameDomain b c = true ->
                 isSameDomain a c = true) /\
  (forall a b, isSameDomain a b = true -> isSameDomain b a = true -> a = b) /\
  (forall url, isSameDomain "" url = true) /\
  (forall domain url, isSameDomain domain url = true ->
                      String.length domain <= String.length url) /\
  (forall a b link, isSameDomain a b = true ->
                    passes b link = true -> passes a link = true).
Proof.
  assert (Htrans : forall a b c, isSameDomain a b = true ->
            isSameDomain b c = true -> isSameDomain a c = true).
  { intros a b c [r1 ->]%isSameDomain_iff [r2 ->]%isSameDomain_iff.
    apply isSameDomain_iff. exists (r1 +:+ r2). apply str_app_assoc. }
  split; [apply isSameDomain_refl |]. split; [exact Htrans |].
  split; [| split; [| split]].
  - intros a b [r1 Hb]%isSameDomain_iff [r2 Ha]%isSameDomain_iff.
    rewrite Hb, str_app_assoc in Ha.
    apply str_app_nil_inv in Ha. destruct r1; [| done].
    by rewrite str_app_nil_r in Hb.
  - intros url. apply isSameDomain_iff. by exists url.
  - intros domain url [r ->]%isSameDomain_iff. rewrite str_length_app. lia.
  - intros a b link Hab. unfold passes. rewrite !andb_true_iff.
    intros [Hi Hb]. split; [done |]. by apply (Htrans a b link).
Qed.

Lemma bytes_length (s : string) : length (Regexp.bytes s) = String.length s.
Proof. induction s as [|c s IH]; simpl; [done | by rewrite IH]. Qed.

Lemma lower_length (s : string) : String.length (lower s) = String.length s.
Proof. induction s as [|c s IH]; simpl; [done | by rewrite IH]. Qed.

Lemma extension_length (ext : list ascii) :
  lower (unbytes ext) ∈ imageExtensions -> 3 <= length ext <= 4.
Proof.
  intros Hin.
  assert (Hlen : String.length (lower (unbytes ext)) = length ext).
  { by rewrite lower_length, <- bytes_length, bytes_unbytes. }
  unfold imageExtensions in Hin. rewrite !elem_of_cons, elem_of_nil in Hin.
  destruct Hin as [Heq|[Heq|[Heq|[Heq|[Heq|[]]]]]];
    rewrite Heq in Hlen; simpl in Hlen; lia.
Qed.

Lemma app_suffix {A : Type} (a b c d : list A) :
  a ++ b = c ++ d -> length d <= length b -> exists e, b = e ++ d.
Proof.
  intros Heq Hlen.
  apply app_eq_inv in Heq as [(k & -> & ->) | (k & -> & ->)].
  - rewrite length_app in Hlen. destruct k; [| simpl in Hlen; lia].
    by exists [].
  - by exists k.
Qed.

(** X8.  [isImageLink] looks at the end of the URL only: a URL is an image
    link whenever it ends in one, the answer for a URL of six bytes or more
    does not change when anything is put in front of it, and no URL shorter
    than five bytes is an image link. *)
Theorem isImageLink_suffix :
  (forall pre u, isImageLink u = true -> isImageLink (pre +:+ u) = true) /\
  (forall pre u, 6 <= String.length u ->
                 isImageLink (pre +:+ u) = isImageLink u) /\
  (forall u, isImageLink u = true -> 5 <= String.length u).
Proof.
  assert (Hiff : forall u, isImageLink u = true <->
            Regexp.MatchString imagePattern u = true).
  { intros u. unfold isImageLink.
    by destruct (Regexp.MatchString imagePattern u). }
  assert (Hup : forall pre u, isImageLink u = true ->
                              isImageLink (pre +:+ u) = true).
  { intros pre u. rewrite !Hiff, !MatchString_imagePattern.
    intros (p & c & ext & Hu & Hc & Hext).
    exists (Regexp.bytes pre ++ p), c, ext. split; [| done].
    by rewrite bytes_app, Hu, <- app_assoc. }
  split; [exact Hup |]. split.
  - intros pre u Hlen.
    destruct (isImageLink u) eqn:Hu; [by apply Hup |].
    destruct (isImageLink (pre +:+ u)) eqn:Hpu; [| done].
    rewrite <- Hu. symmetry. apply Hiff, MatchString_imagePattern.
    apply Hiff, MatchString_imagePattern in Hpu
      as (p & c & ext & Hb & Hc & Hext).
    rewrite bytes_app in Hb.
    pose proof (extension_length ext Hext) as Hext_len.
    destruct (app_suffix _ _ _ _ Hb) as [e He].
    { rewrite bytes_length. simpl. lia. }
    by exists e, c, ext.
  - intros u. rewrite Hiff, MatchString_imagePattern.
    intros (p & c & ext & Hb & Hc & Hext).
    pose proof (extension_length ext Hext) as Hext_len.
    rewrite <- bytes_length, Hb, length_app. simpl. lia.
Qed.

(** ** The links [URLFetcher.Get] finds in a page *)

Lemma Node_ind (P : Node -> Prop) :
  (forall t data attrs children,
     Forall P children -> P (MkNode t data attrs children)) ->
  forall n, P n.
Proof.
  intros IH. fix rec 1. intros [t data attrs children]. apply IH.
  induction children as [|c cs IHcs]; constructor; [apply rec | exact IHcs].
Qed.

(** The link an attribute gives when it is named [key] and resolves. *)
Definition attr_link (parse : string -> option string) (key : string)
    (a : Attribute) : option string :=
  if String.eqb (Key a) key then parse (Val a) else None.

(** The links of a node itself, its children left aside. *)
Definition node_links (parse : string -> option string) (t : NodeType)
    (data : string) (attrs : list Attribute) : list string :=
  (if is_element t && String.eqb data "a"
   then omap (attr_link parse "href") attrs else [])
  ++ (if is_element t && String.eqb data "img"
      then omap (attr_link parse "src") attrs else []).

Lemma rangeAttr_spec parse key attrs links :
  rangeAttr parse key attrs links = links ++ omap (attr_link parse key) attrs.
Proof.
  revert links; induction attrs as [|a attrs IH]; intros links.
  - simpl. by rewrite app_nil_r.
  - change (omap (attr_link parse key) (a :: attrs))
      with (match attr_link parse key a with
            | Some y => y :: omap (attr_link parse key) attrs
            | None => omap (attr_link parse key) attrs
            end).
    cbn [rangeAttr]. unfold attr_link at 1.
    destruct (String.eqb (Key a) key); cbn [negb]; [| apply IH].
    destruct (parse (Val a)) as [link|]; rewrite IH; [| done].
    by rewrite <- app_assoc.
Qed.

Lemma checkNode_eq parse t data attrs children links :
  checkNode parse (MkNode t data attrs children) links =
  foldl (fun acc c => checkNode parse c acc)
        (links ++ node_links parse t data attrs) children.
Proof.
  simpl.
  assert (Hstart :
    (if is_element t && String.eqb data "img"
     then rangeAttr parse "src" attrs
            (if is_element t && String.eqb data "a"
             then rangeAttr parse "href" attrs links else links)
     else (if is_element t && String.eqb data "a"
           then rangeAttr parse "href" attrs links else links))
    = links ++ node_links parse t data attrs).
  { unfold node_links.
    destruct (is_element t && String.eqb data "a");
      destruct (is_element t && String.eqb data "img");
      rewrite ?rangeAttr_spec, ?app_nil_r, <- ?app_assoc; done. }
  rewrite Hstart. generalize (links ++ node_links parse t data attrs).
  induction children as [|c cs IH]; intros acc; simpl; [done | apply IH].
Qed.

Lemma foldl_checkNode parse children acc :
  Forall (fun c => forall links,
            checkNode parse c links = links ++ checkNode parse c [])
         children ->
  foldl (fun acc c => checkNode parse c acc) acc children
  = acc ++ concat ((fun c => checkNode parse c []) <$> children).
Proof.
  intros Hall. revert acc.
  induction Hall as [|c cs Hc _ IH]; intros acc; simpl.
  - by rewrite app_nil_r.
  - rewrite IH, Hc. by rewrite <- app_assoc.
Qed.

Lemma checkNode_app parse n links :
  checkNode parse n links = links ++ checkNode parse n [].
Proof.
  revert links. induction n as [t data attrs children IH] using Node_ind.
  intros links. rewrite !checkNode_eq, !(foldl_checkNode _ _ _ IH).
  simpl. by rewrite <- app_assoc.
Qed.

(** X9.  [checkNode] only ever appends to [links], and it walks the
    document in order: the links of a node are those of its own attributes
    (the hrefs of an [a] element, the srcs of an [img] element), followed by
    the links of its children, first child first.  A node that
    is no element, or an element of another name, adds nothing of its own,
    but its children are still walked. *)
Theorem checkNode_document_order (parse : string -> option string) :
  (forall n links, checkNode parse n links = links ++ checkNode parse n []) /\
  (forall t data attrs children,
     checkNode parse (MkNode t data attrs children) []
     = node_links parse t data attrs
       ++ concat ((fun c => checkNode parse c []) <$> children)) /\
  (forall t data attrs,
     is_element t = false \/ (data <> "a" /\ data <> "img")%string ->
     node_links parse t data attrs = []).
Proof.
  split; [apply checkNode_app |]. split.
  - intros t data attrs children. rewrite checkNode_eq.
    rewrite foldl_checkNode; [done |].
    apply Forall_forall. intros c _ links. apply checkNode_app.
  - intros t data attrs [Ht | [Ha Hi]]; unfold node_links.
    + by rewrite Ht.
    + apply String.eqb_neq in Ha, Hi. rewrite Ha, Hi.
      by rewrite !andb_false_r.
Qed.

Lemma elem_of_concat {A : Type} (x : A) (ls : list (list A)) :
  x ∈ concat ls <-> exists l, x ∈ l /\ l ∈ ls.
Proof.
  induction ls as [|l ls IH]; simpl.
  - split; [by intros ?%elem_of_nil | by intros (? & _ & ?%elem_of_nil)].
  - rewrite elem_of_app, IH. split.
    + intros [H | (l' & H1 & H2)]; [exists l; split; [done | by left] |].
      exists l'. split; [done | by right].
    + intros (l' & H1 & [-> | H2]%elem_of_cons); [by left | right; eauto].
Qed.

(** [inside m n]: the node [m] occurs in the tree of [n]. *)
Inductive inside (m : Node) : Node -> Prop :=
| inside_here : inside m m
| inside_child t data attrs children c :
    c ∈ children -> inside m c -> inside m (MkNode t data attrs children).

(** The node is an [a] element with an href, or an [img] element with a
    src, that resolves to [link]. *)
Definition links_to (parse : string -> option string) (m : Node)
    (link : string) : Prop :=
  match m with
  | MkNode t data attrs _ =>
      t = ElementNode /\
      exists a, a ∈ attrs /\ parse (Val a) = Some link /\
        ((data = "a" /\ Key a = "href") \/ (data = "img" /\ Key a = "src"))%string
  end.

Lemma node_links_spec parse t data attrs link :
  link ∈ node_links parse t data attrs <->
  links_to parse (MkNode t data attrs []) link.
Proof.
  unfold node_links, links_to, attr_link. rewrite elem_of_app. split.
  - intros [Hin | Hin].
    + destruct (is_element t && String.eqb data "a") eqn:Hc;
        [| by apply elem_of_nil in Hin].
      apply andb_true_iff in Hc as [Ht Hd]. apply String.eqb_eq in Hd.
      apply list_elem_of_omap in Hin as (a & Ha & Hl).
      destruct (String.eqb (Key a) "href") eqn:Hk; [| done].
      apply String.eqb_eq in Hk. split; [by destruct t |].
      exists a. auto.
    + destruct (is_element t && String.eqb data "img") eqn:Hc;
        [| by apply elem_of_nil in Hin].
      apply andb_true_iff in Hc as [Ht Hd]. apply String.eqb_eq in Hd.
      apply list_elem_of_omap in Hin as (a & Ha & Hl).
      destruct (String.eqb (Key a) "src") eqn:Hk; [| done].
      apply String.eqb_eq in Hk. split; [by destruct t |].
      exists a. auto.
  - intros (-> & a & Ha & Hl & [[-> Hk] | [-> Hk]]); [left | right]; simpl;
      apply list_elem_of_omap; exists a; (split; [done |]);
      by rewrite Hk.
Qed.

(** X10.  The links [checkNode] returns for a document are exactly those
    of the [a] elements (attribute href) and [img] elements (attribute src)
    anywhere in it whose value resolves; an attribute that does not resolve,
    another attribute, or another element gives no link. *)
Theorem checkNode_links (parse : string -> option string) (n : Node)
    (link : string) :
  link ∈ checkNode parse n [] <->
  exists m, inside m n /\ links_to parse m link.
Proof.
  induction n as [t data attrs children IH] using Node_ind.
  rewrite checkNode_eq, foldl_checkNode
    by (apply Forall_forall; intros c _ links; apply checkNode_app).
  simpl. rewrite elem_of_app, node_links_spec. split.
  - intros [Hown | Hin].
    + exists (MkNode t data attrs children). split; [constructor | done].
    + apply elem_of_concat in Hin as (l & Hl & Hin).
      apply list_elem_of_fmap in Hin as (c & -> & Hc).
      rewrite Forall_forall in IH.
      apply (IH c Hc) in Hl as (m & Hm & Hlink).
      exists m. split; [by eapply inside_child | done].
  - intros (m & Hm & Hlink).
    inversion Hm as [| t' d' a' cs' c Hc Hmc]; subst.
    + by left.
    + right. apply elem_of_concat.
      exists (checkNode parse c []). split.
      * rewrite Forall_forall in IH. apply (IH c Hc). eauto.
      * apply list_elem_of_fmap. by exists c.
Qed.

(** A small page: a link with its text, an image, a link that does not
    resolve, and an element that is neither. *)
Definition sample_doc : Node :=
  MkNode DocumentNode "" []
    [ MkNode ElementNode "html" []
        [ MkNode ElementNode "body" []
            [ MkNode ElementNode "a"
                [ {| Namespace := ""; Key := "class"; Val := "nav" |};
                  {| Namespace := ""; Key := "href";
                     Val := "http://golang.org/gone" |} ]
                [ MkNode TextNode "gone" [] [];
                  MkNode ElementNode "img"
                    [ {| Namespace := ""; Key := "src";
                         Val := "http://golang.org/logo.png" |} ] [] ];
              MkNode ElementNode "a"
                [ {| Namespace := ""; Key := "href"; Val := "::bad" |} ] [];
              MkNode ElementNode "link"
                [ {| Namespace := ""; Key := "href";
                     Val := "http://golang.org/style.css" |} ] [] ] ] ]%string.

(** References resolve to themselves, except the one that is malformed. *)
Definition sample_resolve (v : string) : option string :=
  if String.eqb v "::bad" then None else Some v.

Example checkNode_sample :
  checkNode sample_resolve sample_doc []
  = [ "http://golang.org/gone"; "http://golang.org/logo.png" ]%string.
Proof. reflexivity. Qed.

(** ** The crawl over [URLFetcher] *)

Lemma failed_fetch_logged `{Fetcher} (url : string) (U : list string)
    (U_reach : forall u, Reach url u -> u ∈ U)
    (U_fits : (Z.of_nat (length U) + 2 <= maxInt)%Z) tr s link err :
  complete url tr s -> is_Some (visited s !! link) ->
  snd (Get link) = Some err ->
  sitemap s !! link = Some [] /\ err ∈ stdout s.
Proof.
  intros Hc Hv Herr. pose proof Hc as [Hex _].
  pose proof (complete_stage url U U_reach U_fits tr s link Hc Hv) as Hst.
  assert (Hres : result link = []).
  { unfold result. destruct (Get link) as [links e]. simpl in Herr.
    by subst e. }
  split.
  - rewrite <- Hres.
    apply (complete_sitemap url U U_reach U_fits tr s); [done |].
    split; [| done]. by apply (complete_visited url U U_reach U_fits tr s).
  - rewrite (stdout_exec url tr s Hex). apply list_elem_of_omap.
    exists (EPrint link err). split; [| done].
    apply (life_whole url tr s link); [done | done |].
    unfold lifecycle. rewrite Herr. do 4 right. by left.
Qed.

(** X11.  In a complete crawl of the real fetcher every page reached has
    its entry.  A page answered with status 200 whose body parses has the
    links [checkNode] finds in its document.  A page that [http.Get] could
    not get, that was answered with another status, or whose body does not
    parse has the empty list, and its error has been printed: the error of
    [http.Get], [getting: URL: status] or [parsing URL as HTML: error]. *)
Theorem URLFetcher_crawl (httpGet : string -> Response + string)
    (url : string) (U : list string)
    (U_reach : forall u, @Reach (URLFetcher httpGet) url u -> u ∈ U)
    (U_fits : (Z.of_nat (length U) + 2 <= maxInt)%Z) tr s link :
  @complete (URLFetcher httpGet) url tr s ->
  is_Some (visited s !! link) ->
  match httpGet link with
  | inr err => sitemap s !! link = Some [] /\ err ∈ stdout s
  | inl resp =>
      if (StatusCode resp =? 200)%Z then
        match Parsed resp with
        | inl doc =>
            sitemap s !! link = Some (checkNode (Resolve resp) doc [])
        | inr err =>
            sitemap s !! link = Some [] /\
            ("parsing " +:+ link +:+ " as HTML: " +:+ err) ∈ stdout s
        end
      else
        sitemap s !! link = Some [] /\
        ("getting: " +:+ link +:+ ": " +:+ Status resp) ∈ stdout s
  end.
Proof.
  intros Hc Hv.
  pose proof (fun err => @failed_fetch_logged (URLFetcher httpGet) url U
                           U_reach U_fits tr s link err Hc Hv) as Hfail.
  assert (Hok : sitemap s !! link = Some (@result (URLFetcher httpGet) link)).
  { apply (@complete_sitemap (URLFetcher httpGet) url U U_reach U_fits tr s);
      [done |].
    split; [| done].
    by apply (@complete_visited (URLFetcher httpGet) url U U_reach U_fits tr s). }
  unfold result in Hok. simpl in Hok, Hfail. unfold URLFetcher_Get in Hok, Hfail.
  destruct (httpGet link) as [resp | err]; [| by apply Hfail].
  unfold StatusOK in *.
  destruct (StatusCode resp =? 200)%Z; simpl in *; [| by apply Hfail].
  destruct (Parsed resp) as [doc | err]; [done | by apply Hfail].
Qed.

(** A site of two pages: the seed holds [sample_doc], the page it links to
    is gone, and no other host answers. *)
Definition sample_site (u : string) : Response + string :=
  if String.eqb u golang then
    inl {| StatusCode := 200; Status := "200 OK"; Parsed := inl sample_doc;
           Resolve := sample_resolve |}
  else if String.eqb u "http://golang.org/gone" then
    inl {| StatusCode := 404; Status := "404 Not Found";
           Parsed := inl (MkNode DocumentNode "" [] []);
           Resolve := sample_resolve |}
  else inr "no such host"%string.

Definition sample_run : list event * state :=
  @run (URLFetcher sample_site) golang 100 init.

Definition sample_pages : list string :=
  [ golang; "http://golang.org/gone" ]%string.

Lemma sample_complete :
  @complete (URLFetcher sample_site) golang (fst sample_run) (snd sample_run).
Proof.
  split; [exact (@run_exec (URLFetcher sample_site) golang 100 init) |].
  vm_compute; reflexivity.
Qed.

Lemma sample_reach (u : string) :
  @Reach (URLFetcher sample_site) golang u -> u ∈ sample_pages.
Proof.
  induction 1 as [_ | u l _ IH Hin Hpass]; [by left |].
  unfold sample_pages in IH. rewrite !elem_of_cons, elem_of_nil in IH.
  destruct IH as [-> | [-> | []]];
    vm_compute in Hin;
    repeat (apply elem_of_cons in Hin as [-> | Hin];
            [first [by vm_compute in Hpass
                   | unfold sample_pages;
                     rewrite !elem_of_cons; by auto] |]);
    by apply elem_of_nil in Hin.
Qed.

Lemma sample_fits : (Z.of_nat (length sample_pages) + 2 <= maxInt)%Z.
Proof. by vm_compute. Qed.

Lemma URLFetcher_crawl_witness :
  @complete (URLFetcher sample_site) golang (fst sample_run) (snd sample_run) /\
  sitemap (snd sample_run) !! golang
    = Some [ "http://golang.org/gone"; "http://golang.org/logo.png" ]%string /\
  sitemap (snd sample_run) !! "http://golang.org/gone"%string = Some [] /\
  "getting: http://golang.org/gone: 404 Not Found"%string
    ∈ stdout (snd sample_run).
Proof.
  split; [exact sample_complete |]. split; [vm_compute; reflexivity |].
  assert (Hv : is_Some (visited (snd sample_run)
                          !! "http://golang.org/gone"%string))
    by (vm_compute; by eexists).
  exact (@URLFetcher_crawl sample_site golang sample_pages sample_reach
           sample_fits (fst sample_run) (snd sample_run)
           "http://golang.org/gone"%string sample_complete Hv).
Defined.

(** ** The report of [main] *)

Lemma sortStrings_sorted (l : list string) : Sorted String.le (sortStrings l).
Proof. apply (Sorted_merge_sort String.le). Qed.

Lemma sortStrings_perm (l : list string) : sortStrings l ≡ₚ l.
Proof. apply (merge_sort_Permutation String.le). Qed.

(** The order in which the keys come does not show after sorting. *)
Lemma sortStrings_unique (l1 l2 : list string) :
  l1 ≡ₚ l2 -> sortStrings l1 = sortStrings l2.
Proof.
  intros Hp. apply (Sorted_unique String.le); try apply sortStrings_sorted.
  by rewrite !sortStrings_perm.
Qed.

Lemma report_length arg (m : gmap string (list string)) order :
  length (report arg m order)
  = 1 + total (fun k => S (length (default [] (m !! k)))) (sortStrings order).
Proof.
  unfold report. simpl. f_equal.
  induction (sortStrings order) as [|k ks IH]; [done |].
  rewrite fmap_cons. simpl. rewrite length_app, IH.
  unfold page_lines. simpl. by rewrite length_fmap.
Qed.

(** X12.  The report of [main] does not depend on the order in which the
    keys of the map are ranged over.  After the line with the number of
    pages it lists every page of the sitemap once, in increasing order of
    the URLs, each followed by one line per link: one line for the count,
    one per page and one per link in all. *)
Theorem report_sorted (arg : string) (m : gmap string (list string))
    (order : list string) :
  order ≡ₚ (map_to_list m).*1 ->
  Sorted String.le (sortStrings order) /\
  NoDup (sortStrings order) /\
  (forall k, k ∈ sortStrings order <-> is_Some (m !! k)) /\
  (forall order', order' ≡ₚ (map_to_list m).*1 ->
     report arg m order' = report arg m order) /\
  report arg m order
  = ("Found " +:+ pretty (size m) +:+ " pages from " +:+ arg)
    :: concat (page_lines m <$> sortStrings order) /\
  length (report arg m order)
  = 1 + total (fun k => S (length (default [] (m !! k)))) (sortStrings order).
Proof.
  intros Hp. split; [apply sortStrings_sorted |]. split; [| split].
  - rewrite sortStrings_perm, Hp. apply NoDup_fst_map_to_list.
  - intros k. rewrite sortStrings_perm, Hp, list_elem_of_fmap. split.
    + intros ([k' l] & -> & Hin). apply elem_of_map_to_list in Hin. by exists l.
    + intros [l Hl]. exists (k, l). split; [done |].
      by apply elem_of_map_to_list.
  - split; [| split; [done | apply report_length]].
    intros order' Hp'. unfold report.
    by rewrite (sortStrings_unique order' order) by (by rewrite Hp, Hp').
Qed.

Lemma report_sorted_witness :
  reverse (map_to_list tester).*1 ≡ₚ (map_to_list tester).*1 /\
  report golang tester (reverse (map_to_list tester).*1)
  = [ "Found 4 pages from http://golang.org";
      "http://golang.org";
      tab +:+ "http://golang.org/test.html";
      tab +:+ "http://golang.org/test2.html";
      tab +:+ "http://golang.org/images/gopher.jpg";
      tab +:+ "http://goweeklynews.com";
      "http://golang.org/test.html";
      tab +:+ "http://golang.org/testing.html";
      tab +:+ "http://golang.org/images/gopher.jpg";
      tab +:+ "http://linkedin.com/golang";
      "http://golang.org/test2.html";
      tab +:+ "http://golang.org";
      "http://golang.org/testing.html";
      tab +:+ "http://golang.org" ]%string /\
  Sorted String.le (sortStrings (reverse (map_to_list tester).*1)) /\
  NoDup (sortStrings (reverse (map_to_list tester).*1)).
Proof.
  split; [apply reverse_Permutation |]. split; [vm_compute; reflexivity |].
  pose proof (report_sorted golang tester (reverse (map_to_list tester).*1)
                (reverse_Permutation _)) as (H1 & H2 & _).
  exact (conj H1 H2).
Defined.

(** ** [main] *)

Lemma tester_no_error (u : string) :
  @Reach (testFetcher tester) golang u ->
  snd (@Get (testFetcher tester) u) = None.
Proof.
  intros Hu%tester_reach. unfold tester_pages in Hu.
  rewrite !elem_of_cons, elem_of_nil in Hu.
  by destruct Hu as [-> | [-> | [-> | [-> | []]]]]; vm_compute.
Qed.

(** X13.  When no page that can be reached fails to be fetched, what
    [main] prints for a seed is the same on every run, whatever the schedule
    of the goroutines and the order in which the map is ranged over, and it
    exits with code 0. *)
Theorem main_output_deterministic `{Fetcher} (url : string) (U : list string)
    (U_reach : forall u, Reach url u -> u ∈ U)
    (U_fits : (Z.of_nat (length U) + 2 <= maxInt)%Z)
    (prog : string) out1 c1 out2 c2 :
  (forall u, Reach url u -> snd (Get u) = None) ->
  main_prints [prog; url] out1 c1 ->
  main_prints [prog; url] out2 c2 ->
  out1 = out2 /\ c1 = 0%Z /\ c2 = 0%Z.
Proof.
  intros Hok H1 H2.
  destruct H1 as [Hlen | prog1 url1 tr1 s1 order1 [= <- <-] Hc1 Hp1]; [done |].
  destruct H2 as [Hlen | prog2 url2 tr2 s2 order2 [= <- <-] Hc2 Hp2]; [done |].
  split; [| done].
  rewrite (stdout_quiet url tr1 s1 (proj1 Hc1) Hok),
    (stdout_quiet url tr2 s2 (proj1 Hc2) Hok).
  rewrite <- (complete_same_sitemap url U U_reach U_fits tr1 s1 tr2 s2 Hc1 Hc2)
    in *.
  simpl. unfold report.
  by rewrite (sortStrings_unique order1 order2) by (by rewrite Hp1, Hp2).
Qed.

Lemma main_output_deterministic_witness :
  @main_prints (testFetcher tester) [ "crawler"%string; golang ]
    (stdout tester_final
     ++ report golang (sitemap tester_final)
          (map_to_list (sitemap tester_final)).*1) 0 /\
  @main_prints (testFetcher tester) [ "crawler"%string; golang ]
    (stdout (snd tester_eager_run)
     ++ report golang (sitemap (snd tester_eager_run))
          (reverse (map_to_list (sitemap (snd tester_eager_run))).*1)) 0 /\
  stdout tester_final
    ++ report golang (sitemap tester_final)
         (map_to_list (sitemap tester_final)).*1
  = stdout (snd tester_eager_run)
    ++ report golang (sitemap (snd tester_eager_run))
         (reverse (map_to_list (sitemap (snd tester_eager_run))).*1).
Proof.
  assert (H1 : @main_prints (testFetcher tester) [ "crawler"%string; golang ]
                 (stdout tester_final
                  ++ report golang (sitemap tester_final)
                       (map_to_list (sitemap tester_final)).*1) 0).
  { exact (@main_crawl (testFetcher tester) _ "crawler"%string golang
             tester_trace tester_final _ eq_refl tester_complete
             (reflexivity _)). }
  assert (H2 : @main_prints (testFetcher tester) [ "crawler"%string; golang ]
                 (stdout (snd tester_eager_run)
                  ++ report golang (sitemap (snd tester_eager_run))
                       (reverse (map_to_list
                                   (sitemap (snd tester_eager_run))).*1)) 0).
  { exact (@main_crawl (testFetcher tester) _ "crawler"%string golang
             (fst tester_eager_run) (snd tester_eager_run) _ eq_refl
             tester_eager_complete (reverse_Permutation _)). }
  split; [exact H1 |]. split; [exact H2 |].
  exact (proj1 (@main_output_deterministic (testFetcher tester) golang
                  tester_pages tester_reach tester_fits "crawler"%string
                  _ _ _ _ tester_no_error H1 H2)).
Defined.
